(** * assembling.py: a generic line-oriented assembler engine

    Shallow embedding of [src/assembling.py] (classes [Instruction],
    [InstructionSet], [AssemblerError], [Assembler]) and the properties of
    its two-pass translation pipeline.

    Conventions of the embedding.
    - A Python [str] is a [text]: a list of characters.  A character is an
      [ascii], read as the code point of the same number, so the texts of
      the model are the Python strings over code points 0..255; the
      character classes below are Python's on that range.
    - The [re] module is not part of the repository.  The pattern of an
      instruction is a text, [pattern_str]; [compile] reads the texts of a
      fragment of the pattern language into parsed form ([regex]), and
      matching is the backtracking search of [re] on the parsed form, with
      its priorities (leftmost alternative first, greedy repetition).
    - The engine keeps an instruction compiled: its [arguments] are the
      patterns that the texts of the arguments compile to, each on its
      own.  For such arguments [compile_pattern_str] and
      [fullmatch_pattern_str] show that the pattern of the engine is the
      pattern text compiled.  What the module does with other arguments
      (a text that is a pattern only between the parentheses, or only
      outside them) is said by [pattern_str] and [compile], not by the
      engine: a pattern text that [re] refuses makes [re.fullmatch] raise
      when a statement reaches the instruction, and the engine has no
      such instruction.
    - A formatter is a Python callable: it may read and change the state of
      the program and it may raise.  It is a function into the monad [M]
      over an arbitrary type of program states. *)

From Stdlib Require Import String Ascii DecimalString List Arith Lia Bool.
Import ListNotations.
Local Open Scope list_scope.

Set Implicit Arguments.

(** ** Texts and the character classes of Python *)

Definition text : Type := list ascii.

Definition str (s : string) : text := list_ascii_of_string s.

Definition code (c : ascii) : nat := nat_of_ascii c.

Definition between (lo hi n : nat) : bool := (lo <=? n) && (n <=? hi).

Definition LF : ascii := ascii_of_nat 10.
Definition CR : ascii := ascii_of_nat 13.

(** [str.isspace] on one character, which is also [\s] of [re] on [str]
    patterns: TAB..CR, FS..US, space, NEL and NBSP. *)
Definition isspace (c : ascii) : bool :=
  let n := code c in
  between 9 13 n || between 28 32 n || (n =? 133) || (n =? 160).

(** [str.isdecimal] on one character, which is [\d] of [re]. *)
Definition isdecimal (c : ascii) : bool := between 48 57 (code c).

(** [str.isalnum] on one character: digits, letters, and the letters and
    numeric characters of the Latin-1 supplement. *)
Definition isalnum (c : ascii) : bool :=
  let n := code c in
  between 48 57 n || between 65 90 n || between 97 122 n
  || (n =? 170) || between 178 179 n || (n =? 181) || between 185 186 n
  || between 188 190 n || between 192 214 n || between 216 246 n
  || between 248 255 n.

(** [\w] of [re]: alphanumeric or underscore. *)
Definition isword (c : ascii) : bool := isalnum c || (code c =? 95).

(** [.] of [re] without DOTALL: any character except the line feed. *)
Definition isdot (c : ascii) : bool := negb (code c =? 10).

(** The line boundaries of [str.splitlines] below code point 256. *)
Definition islinebreak (c : ascii) : bool :=
  let n := code c in between 10 13 n || between 28 30 n || (n =? 133).

(** The ranges the specification names for identifiers. *)
Definition isletter_ (c : ascii) : bool :=
  let n := code c in between 65 90 n || between 97 122 n || (n =? 95).

Definition isletter_digit (c : ascii) : bool :=
  isletter_ c || between 48 57 (code c).

(** [str.lstrip()], [str.rstrip()] and [str.strip()] with no argument. *)
Fixpoint lstrip (s : text) : text :=
  match s with
  | c :: s' => if isspace c then lstrip s' else s
  | [] => []
  end.

Definition rstrip (s : text) : text := rev (lstrip (rev s)).

Definition strip (s : text) : text := rstrip (lstrip s).

(** Truth value of a Python string: the empty string is falsy. *)
Definition truthy (s : text) : bool :=
  match s with [] => false | _ :: _ => true end.

(** [sep.join(l)]. *)
Fixpoint join (sep : text) (l : list text) : text :=
  match l with
  | [] => []
  | [x] => x
  | x :: l' => x ++ sep ++ join sep l'
  end.

(** [str.splitlines()]: the text is cut at every line boundary, CR LF being
    one boundary; the boundaries are dropped and a boundary that ends the
    text opens no further line.  [cur] is the current line, reversed. *)
Fixpoint splitlines_from (cur s : text) : list text :=
  match s with
  | [] => match cur with [] => [] | _ :: _ => [rev cur] end
  | c :: s' =>
      if islinebreak c then
        rev cur ::
        (if code c =? 13 then
           match s' with
           | c2 :: s'' =>
               if code c2 =? 10 then splitlines_from [] s''
               else splitlines_from [] s'
           | [] => splitlines_from [] s'
           end
         else splitlines_from [] s')
      else splitlines_from (c :: cur) s'
  end.

Definition splitlines (s : text) : list text := splitlines_from [] s.

(** [re.sub] of the pattern [; .*] by the empty text: every semicolon is deleted together with what
    follows it up to, and not including, the next line feed ([.] stops at a
    line feed only). *)
Fixpoint strip_comments_from (in_comment : bool) (s : text) : text :=
  match s with
  | [] => []
  | c :: s' =>
      if in_comment then
        if code c =? 10 then c :: strip_comments_from false s'
        else strip_comments_from true s'
      else if code c =? 59 then strip_comments_from true s'
      else c :: strip_comments_from false s'
  end.

Definition strip_comments (s : text) : text := strip_comments_from false s.

(** Decimal rendering of a line number, as an f-string does it. *)
Definition decimal (n : nat) : text :=
  str (NilEmpty.string_of_uint (Nat.to_uint n)).

(** ** Patterns of [re], in parsed form

    The fragment of the pattern language that the module and its callers
    write: literal characters, character classes, concatenation,
    alternation, greedy [*], capturing groups [( )] (the non-capturing
    [(?: )] is plain nesting), and zero-width assertions ([^], [$], [\b],
    look-around), which test the text on both sides of the current
    position without consuming any of it. *)
Inductive regex : Type :=
| Eps
| Chr (c : ascii)
| Cls (p : ascii -> bool)
| Look (p : text -> text -> bool)
| Cat (r1 r2 : regex)
| Alt (r1 r2 : regex)
| Star (r : regex)
| Group (r : regex).

(** A literal text, as [re.escape] makes one. *)
Fixpoint Lit (s : text) : regex :=
  match s with
  | [] => Eps
  | c :: s' => Cat (Chr c) (Lit s')
  end.

(** Number of capturing groups; groups are numbered by their opening
    parenthesis, from left to right. *)
Fixpoint ngroups (r : regex) : nat :=
  match r with
  | Eps | Chr _ | Cls _ | Look _ => 0
  | Cat r1 r2 | Alt r1 r2 => ngroups r1 + ngroups r2
  | Star r => ngroups r
  | Group r => S (ngroups r)
  end.

(** The value of every group: [None] for a group that took no part. *)
Definition captures : Type := list (option text).

(** Assignment at an index ([caps[i] = x]); the matcher only assigns
    inside the list. *)
Fixpoint upd (A : Type) (i : nat) (x : A) (l : list A) : list A :=
  match l, i with
  | [], _ => []
  | _ :: l', 0 => x :: l'
  | y :: l', S i' => y :: upd i' x l'
  end.

(** What remains to be matched after a sub-pattern: a function of the text
    already consumed (reversed), the text left and the groups so far. *)
Definition cont : Type := text -> text -> captures -> option captures.

(** Greedy repetition.  One more round of the body is tried first, and the
    rest of the pattern only if that fails; a round that consumed nothing
    does not repeat (the engine's guard against empty loops), it goes on to
    the rest of the pattern.  [n] bounds the rounds: each one that repeats
    has consumed a character. *)
Fixpoint star_loop (body : text -> text -> captures -> cont -> option captures)
    (n : nat) (pre s : text) (caps : captures) (k : cont) : option captures :=
  match n with
  | 0 => k pre s caps
  | S n' =>
      match body pre s caps
              (fun pre' s' caps' =>
                 if length s' <? length s then star_loop body n' pre' s' caps' k
                 else k pre' s' caps') with
      | Some c => Some c
      | None => k pre s caps
      end
  end.

(** The backtracking matcher: [rmatch r i pre s caps k] matches [r], whose
    first group has number [i], at the front of [s] with [pre] (reversed)
    before it, then runs [k]; the first way that makes [k] succeed wins. *)
Fixpoint rmatch (r : regex) (i : nat) (pre s : text) (caps : captures)
    (k : cont) {struct r} : option captures :=
  match r with
  | Eps => k pre s caps
  | Chr c =>
      match s with
      | x :: s' => if Ascii.eqb x c then k (x :: pre) s' caps else None
      | [] => None
      end
  | Cls p =>
      match s with
      | x :: s' => if p x then k (x :: pre) s' caps else None
      | [] => None
      end
  | Look p => if p pre s then k pre s caps else None
  | Cat r1 r2 =>
      rmatch r1 i pre s caps
        (fun pre' s' caps' => rmatch r2 (i + ngroups r1) pre' s' caps' k)
  | Alt r1 r2 =>
      match rmatch r1 i pre s caps k with
      | Some c => Some c
      | None => rmatch r2 (i + ngroups r1) pre s caps k
      end
  | Star r1 => star_loop (rmatch r1 i) (S (length s)) pre s caps k
  | Group r1 =>
      rmatch r1 (S i) pre s caps
        (fun pre' s' caps' =>
           k pre' s' (upd i (Some (firstn (length s - length s') s)) caps'))
  end.

(** [re.fullmatch(r, s)]: the match must end where the text ends.  The
    result is [m.groups()] of the match object, or [None]. *)
Definition at_end : cont :=
  fun _ s caps => match s with [] => Some caps | _ :: _ => None end.

Definition fullmatch (r : regex) (s : text) : option captures :=
  rmatch r 0 [] s (repeat None (ngroups r)) at_end.

(** [m.groups()[i]]. *)
Definition group (i : nat) (gs : captures) : option text := nth i gs None.

(** The classes as patterns. *)
Definition ws : regex := Cls isspace.
Definition word : regex := Cls isword.
Definition digit : regex := Cls isdecimal.
Definition dot : regex := Cls isdot.

(** The identifier of both label patterns, [(?:_|\w) (?:_|\w|\d)*]
    (patterns are written here with a space between their parts). *)
Definition IDENT : regex :=
  Cat (Alt (Chr "_") word) (Star (Alt (Chr "_") (Alt word digit))).

(** The label prefix of the pre-pass,
    [\s* ( (?:_|\w) (?:_|\w|\d)* ) \s* : ( .* )]. *)
Definition LABEL : regex :=
  Cat (Star ws) (Cat (Group IDENT) (Cat (Star ws) (Cat (Chr ":") (Group (Star dot))))).

(** The bare label of the main pass,
    [\s* ( (?:_|\w) (?:_|\w|\d)* ) \s* : \s*]. *)
Definition BARE : regex :=
  Cat (Star ws) (Cat (Group IDENT) (Cat (Star ws) (Cat (Chr ":") (Star ws)))).

(** ** Errors and effects *)

(** The four messages of [AssemblerError]; the line is [line_number + 1]. *)
Inductive AssemblerError : Type :=
| EmptyInput
| MultipleLabelsOneLine
| StatementOutsideSection (line : nat)
| InvalidSyntax (line : nat).

(** The text of the error, as the source builds it. *)
Definition message (e : AssemblerError) : text :=
  match e with
  | EmptyInput => str "no code to assemble"
  | MultipleLabelsOneLine =>
      str "can't have a more than one label in one line; separate labels with newlines"
  | StatementOutsideSection n =>
      str "statement in line " ++ decimal n ++ str " out of section"
  | InvalidSyntax n =>
      str "invalid syntax at line " ++ decimal n
      ++ str " (as specified by given instruction set)"
  end.

(** What a call can raise: the module's own error, the [TypeError] of a
    builtin, the [AttributeError] that the last step of [assemble]
    catches, or any other exception of a formatter. *)
Inductive exn : Type :=
| Asm (e : AssemblerError)
| TypeError
| AttributeError
| OtherError (what : text).

Inductive outcome (A : Type) : Type :=
| Return (a : A)
| Raise (e : exn).

Arguments Return {A} a.
Arguments Raise {A} e.

(** What [assemble] returns: [str | bytes]. *)
Inductive output : Type :=
| Str (s : text)
| Bytes (b : list Byte.byte).

Section Engine.

(** The state of the program outside the engine, which only formatters can
    read or change. *)
Variable W : Type.

(** A computation: from a state to an outcome and the state it leaves. *)
Definition M (A : Type) : Type := W -> outcome A * W.

Definition ret (A : Type) (a : A) : M A := fun w => (Return a, w).

Definition raise (A : Type) (e : exn) : M A := fun w => (Raise e, w).

Arguments raise {A} e.

Definition bind (A B : Type) (c : M A) (f : A -> M B) : M B :=
  fun w =>
    match c w with
    | (Return a, w') => f a w'
    | (Raise e, w') => (Raise e, w')
    end.

(** [try: c except AttributeError: ...] around a computation whose value
    is only used inside the [try]. *)
Definition try_except_AttributeError (A : Type) (c : M A) (default : A) : M A :=
  fun w =>
    match c w with
    | (Raise AttributeError, w') => (Return default, w')
    | r => r
    end.

Notation "x <- c ;; f" := (bind c (fun x => f))
  (at level 61, c at next level, right associativity).

(** ** The classes of the module *)

(** [Instruction]: a mnemonic, the arguments and the formatter, which is
    called with the groups of the match, in order.  The arguments are kept
    compiled: for each argument the pattern that its text is on its own
    ([compile_each] below). *)
Record Instruction : Type := {
  mnemonic : text;
  arguments : list regex;
  formatter : captures -> M text
}.

(** The argument list of the pattern, compiled: the grammars, each in a
    capturing group of its own, separated by [\s* , \s*]; the empty
    pattern when there is none.  The text that line 10 builds is
    [arguments_str] below; it compiles to this pattern when the text of
    every argument is a pattern on its own. *)
Fixpoint arguments_regex (args : list regex) : regex :=
  match args with
  | [] => Eps
  | [g] => Group g
  | g :: rest =>
      Cat (Group g) (Cat (Star ws) (Cat (Chr ",") (Cat (Star ws) (arguments_regex rest))))
  end.

(** [Instruction.pattern()], compiled: the pattern that the text
    [pattern_str] of [__init__] is,
    [(?: \s* M \s* (?: args ) \s* )] with the mnemonic escaped. *)
Definition pattern (i : Instruction) : regex :=
  Cat (Star ws)
    (Cat (Lit (mnemonic i))
       (Cat (Star ws) (Cat (arguments_regex (arguments i)) (Star ws)))).

(** [Instruction.format]: the formatter applied to the same arguments. *)
Definition format (i : Instruction) (args : captures) : M text :=
  formatter i args.

(** [InstructionSet]: the two section formatters and the instructions;
    iterating it is iterating [instructions].  A section formatter is
    called with a group of a match or with the recorded name. *)
Record InstructionSet : Type := {
  section_start_formatter : option text -> M text;
  section_end_formatter : option text -> M text;
  instructions : list Instruction
}.

(** [Assembler(start_formatter, end_formatter, instruction_set)]. *)
Record Assembler : Type := {
  start_formatter : text;
  end_formatter : text;
  instruction_set : InstructionSet
}.

(** ** [Assembler.assemble] *)

Definition lift (A : Type) (o : outcome A) : M A := fun w => (o, w).

(** The body of the first loop for one line: the lines it appends to
    [new_text].  ([to_jump], which the loop also fills, is never read.)
    A label prefix splits the line after its colon; the remainder must not
    begin with a label prefix itself.  (A group that took no part in the
    match is [None] in Python, and [re.fullmatch] raises [TypeError] on
    it; the second group of this pattern always takes part.) *)
Definition split_label (line : text) : outcome (list text) :=
  match fullmatch LABEL line with
  | Some gs =>
      match group 1 gs with
      | Some statement =>
          match fullmatch LABEL statement with
          | Some _ => Raise (Asm MultipleLabelsOneLine)
          | None =>
              Return [firstn (length line - length statement) line; statement]
          end
      | None => Raise TypeError
      end
  | None => Return [line]
  end.

(** The first loop: the list [new_text] before it is joined. *)
Fixpoint label_pass (lines : list text) : outcome (list text) :=
  match lines with
  | [] => Return []
  | line :: rest =>
      match split_label line with
      | Return ls =>
          match label_pass rest with
          | Return ls' => Return (ls ++ ls')
          | Raise e => Raise e
          end
      | Raise e => Raise e
      end
  end.

(** The variables of the second loop. *)
Record state : Type := {
  result : list text;
  sections_started : nat;
  last_section_name : option text
}.

(** A bare label line: close the open section if there is one, open the
    new one.  Both formatters receive the group of the line just read. *)
Definition open_section (iset : InstructionSet) (name : option text)
    (st : state) : M state :=
  res <- (if negb (sections_started st =? 0)
          then e <- section_end_formatter iset name ;; ret (result st ++ [e])
          else ret (result st)) ;;
  s <- section_start_formatter iset name ;;
  ret {| result := res ++ [s];
         sections_started := S (sections_started st);
         last_section_name := name |}.

(** The inner loop over the instruction set: the first instruction whose
    pattern matches the whole line decides; none matching is an error. *)
Fixpoint dispatch (table : list Instruction) (line_number : nat) (line : text)
    (st : state) : M state :=
  match table with
  | [] => raise (Asm (InvalidSyntax (line_number + 1)))
  | instruction :: rest =>
      match fullmatch (pattern instruction) line with
      | Some groups =>
          if sections_started st =? 0
          then raise (Asm (StatementOutsideSection (line_number + 1)))
          else
            r <- format instruction groups ;;
            ret {| result := result st ++ [r];
                   sections_started := sections_started st;
                   last_section_name := last_section_name st |}
      | None => dispatch rest line_number line st
      end
  end.

(** [not line or not line.strip()]. *)
Definition blank (line : text) : bool :=
  negb (truthy line) || negb (truthy (strip line)).

(** The body of the second loop for one line.  The flag
    [no_instruction_can_please_me] of the source is the control flow
    here: a boundary line continues with the next line, a blank line
    clears the flag, any other line enters the inner loop, and the flag
    still set after that loop is the invalid syntax error. *)
Definition main_step (iset : InstructionSet) (line_number : nat) (line : text)
    (st : state) : M state :=
  match fullmatch BARE line with
  | Some s => open_section iset (group 0 s) st
  | None =>
      if blank line then ret st
      else dispatch (instructions iset) line_number line st
  end.

(** The second loop, over [enumerate] of the lines. *)
Fixpoint main_pass (iset : InstructionSet) (lines : list text)
    (line_number : nat) (st : state) : M state :=
  match lines with
  | [] => ret st
  | line :: rest =>
      st' <- main_step iset line_number line st ;;
      main_pass iset rest (S line_number) st'
  end.

Definition initial : state :=
  {| result := []; sections_started := 0; last_section_name := Some [] |}.

(** The lines the second loop reads: [new_text] joined, its comments
    stripped again, split again. *)
Definition rewritten (new_text : list text) : list text :=
  splitlines (strip_comments (join [LF] new_text)).

(** The last statement inside [try]: the end of the last section. *)
Definition close_last (iset : InstructionSet) (st : state) : M (list text) :=
  try_except_AttributeError
    (e <- section_end_formatter iset (last_section_name st) ;;
     ret (result st ++ [e]))
    (result st).

(** The list [result] when the function reaches its last two lines. *)
Definition emitted (a : Assembler) (t : text) : M (list text) :=
  if negb (truthy (strip t)) then raise (Asm EmptyInput)
  else
    new_text <- lift (label_pass (splitlines (strip_comments t))) ;;
    st <- main_pass (instruction_set a) (rewritten new_text) 0 initial ;;
    close_last (instruction_set a) st.

(** [filter(None, ...)] joined with line feeds. *)
Definition joined (a : Assembler) (res : list text) : text :=
  join [LF] (filter truthy ([start_formatter a] ++ res ++ [end_formatter a])).

(** The builtin [bytes] applied to a [str] and nothing else: without an
    encoding it raises [TypeError], whatever the string. *)
Definition bytes (s : text) : outcome output := Raise TypeError.

Definition assemble (a : Assembler) (t : text) (binary_output : bool)
    : M output :=
  res <- emitted a t ;;
  let _result := joined a res in
  if binary_output then lift (bytes _result) else ret (Str _result).

End Engine.

Arguments ret {W A} a.
Arguments raise {W A} e.
Arguments lift {W A} o.
Arguments initial : clear implicits.

(** ** What a pattern matches

    [run r i pre s rest caps caps']: the pattern [r], whose first group has
    number [i], matches the text [s] standing between [pre] (reversed) and
    [rest], and takes the groups from [caps] to [caps'].  [lang] is the
    same without the groups. *)
Inductive run : regex -> nat -> text -> text -> text -> captures -> captures -> Prop :=
| run_Eps i pre rest c : run Eps i pre [] rest c c
| run_Chr a i pre rest c : run (Chr a) i pre [a] rest c c
| run_Cls p a i pre rest c : p a = true -> run (Cls p) i pre [a] rest c c
| run_Look p i pre rest c : p pre rest = true -> run (Look p) i pre [] rest c c
| run_Cat r1 r2 i pre s1 s2 rest c c1 c2 :
    run r1 i pre s1 (s2 ++ rest) c c1 ->
    run r2 (i + ngroups r1) (rev s1 ++ pre) s2 rest c1 c2 ->
    run (Cat r1 r2) i pre (s1 ++ s2) rest c c2
| run_AltL r1 r2 i pre s rest c c' :
    run r1 i pre s rest c c' -> run (Alt r1 r2) i pre s rest c c'
| run_AltR r1 r2 i pre s rest c c' :
    run r2 (i + ngroups r1) pre s rest c c' -> run (Alt r1 r2) i pre s rest c c'
| run_Star0 r i pre rest c : run (Star r) i pre [] rest c c
| run_StarS r i pre s1 s2 rest c c1 c2 :
    run r i pre s1 (s2 ++ rest) c c1 ->
    run (Star r) i (rev s1 ++ pre) s2 rest c1 c2 ->
    run (Star r) i pre (s1 ++ s2) rest c c2
| run_Group r i pre s rest c c' :
    run r (S i) pre s rest c c' ->
    run (Group r) i pre s rest c (upd i (Some s) c').

Inductive lang : regex -> text -> text -> text -> Prop :=
| lang_Eps pre rest : lang Eps pre [] rest
| lang_Chr a pre rest : lang (Chr a) pre [a] rest
| lang_Cls p a pre rest : p a = true -> lang (Cls p) pre [a] rest
| lang_Look p pre rest : p pre rest = true -> lang (Look p) pre [] rest
| lang_Cat r1 r2 pre s1 s2 rest :
    lang r1 pre s1 (s2 ++ rest) ->
    lang r2 (rev s1 ++ pre) s2 rest ->
    lang (Cat r1 r2) pre (s1 ++ s2) rest
| lang_AltL r1 r2 pre s rest :
    lang r1 pre s rest -> lang (Alt r1 r2) pre s rest
| lang_AltR r1 r2 pre s rest :
    lang r2 pre s rest -> lang (Alt r1 r2) pre s rest
| lang_Star0 r pre rest : lang (Star r) pre [] rest
| lang_StarS r pre s1 s2 rest :
    lang r pre s1 (s2 ++ rest) ->
    lang (Star r) (rev s1 ++ pre) s2 rest ->
    lang (Star r) pre (s1 ++ s2) rest
| lang_Group r pre s rest : lang r pre s rest -> lang (Group r) pre s rest.

(** A continuation that succeeds at a position whatever the groups. *)
Definition succeeds (k : cont) (pre s : text) : Prop :=
  forall caps, k pre s caps <> None.

(** A pattern without zero-width assertions: what it matches does not
    depend on the text around the match. *)
Fixpoint lookfree (r : regex) : bool :=
  match r with
  | Eps | Chr _ | Cls _ => true
  | Look _ => false
  | Cat r1 r2 | Alt r1 r2 => lookfree r1 && lookfree r2
  | Star r | Group r => lookfree r
  end.

(** [t] is a text the grammar [g] matches as a whole, on its own. *)
Definition matches (g : regex) (t : text) : Prop := fullmatch g t <> None.


(** The word boundary [\b]: a word character on exactly one side. *)
Definition WordB : regex :=
  Look (fun pre s =>
          xorb (match pre with c :: _ => isword c | [] => false end)
               (match s with c :: _ => isword c | [] => false end)).

(** One or more, for a pattern without groups. *)
Definition plus (r : regex) : regex := Cat r (Star r).

(** ** The tests of the two loops, and the label of the specification *)

(** The test of the first loop: the line has a label prefix. *)
Definition is_label_declaration (line : text) : bool :=
  match fullmatch LABEL line with Some _ => true | None => false end.

(** The test of the second loop: the line is a section boundary. *)
Definition is_section_boundary (line : text) : bool :=
  match fullmatch BARE line with Some _ => true | None => false end.

Fixpoint drop_while (p : ascii -> bool) (s : text) : text :=
  match s with
  | c :: s' => if p c then drop_while p s' else s
  | [] => []
  end.

(** An identifier of the specification: a letter or underscore, then
    letters, digits and underscores. *)
Definition spec_identifier (id : text) : bool :=
  match id with
  | c :: r => isletter_ c && forallb isletter_digit r
  | [] => false
  end.

(** A label declaration in the words of the specification: the line
    begins with such an identifier and a colon comes right after it. *)
Definition spec_label_declaration (line : text) : bool :=
  match line with
  | c :: r =>
      isletter_ c &&
      match drop_while isletter_digit r with
      | d :: _ => code d =? 58
      | [] => false
      end
  | [] => false
  end.

(** The test of the inner loop: the instruction's pattern matches the
    whole line. *)
Definition accepts (W : Type) (i : Instruction W) (line : text) : bool :=
  match fullmatch (pattern i) line with Some _ => true | None => false end.

(** ** Purity and repeated calls *)

(** A computation that neither reads nor changes the state. *)
Definition pureM (W A : Type) (c : M W A) : Prop :=
  exists o, forall w, c w = (o, w).

Definition pure_formatters (W : Type) (a : Assembler W) : Prop :=
  (forall n, pureM (section_start_formatter (instruction_set a) n))
  /\ (forall n, pureM (section_end_formatter (instruction_set a) n))
  /\ (forall i, In i (instructions (instruction_set a)) ->
                forall gs, pureM (formatter i gs)).

(** Two calls in a row: the second runs in the state the first left. *)
Definition twice (W : Type) (a : Assembler W) (t : text) (binary_output : bool)
    (w : W) : outcome output * outcome output :=
  let (r1, w1) := assemble a t binary_output w in
  let (r2, _) := assemble a t binary_output w1 in
  (r1, r2).

(** Two results that are the same, or the same rejection of a line that
    is the second for one call and the third for the other. *)
Definition same_up_to_line (W A : Type) (r1 r2 : outcome A * W) : Prop :=
  r1 = r2
  \/ exists w', r1 = (Raise (Asm (InvalidSyntax 2)), w')
                /\ r2 = (Raise (Asm (InvalidSyntax 3)), w').

(** A text that begins, or ends, with a line feed: with an empty line. *)
Definition starts_with_LF (s : text) : bool :=
  match s with c :: _ => code c =? 10 | [] => false end.

Definition ends_with_LF (s : text) : bool := starts_with_LF (rev s).

(** ** An instruction set to run the engine on *)

Module Demo.

(** How an f-string shows the name it is given. *)
Definition show (n : option text) : text :=
  match n with Some t => t | None => str "None" end.

Definition nop : Instruction unit :=
  {| mnemonic := str "nop"; arguments := [];
     formatter := fun _ => ret (str "NOP") |}.

Definition mov : Instruction unit :=
  {| mnemonic := str "mov"; arguments := [plus word; plus word];
     formatter := fun gs =>
       ret (str "MOV " ++ show (group 0 gs) ++ str "," ++ show (group 1 gs)) |}.

Definition iset : InstructionSet unit :=
  {| section_start_formatter := fun n => ret (str "START " ++ show n);
     section_end_formatter := fun n => ret (str "END " ++ show n);
     instructions := [nop; mov] |}.

Definition asm : Assembler unit :=
  {| start_formatter := str "BEGIN"; end_formatter := str "FINISH";
     instruction_set := iset |}.

(** Lines of a source text. *)
Definition lines (l : list string) : text := join [LF] (map str l).

(** An instruction whose grammar starts at a word boundary, [\bx]. *)
Definition movb : Instruction unit :=
  {| mnemonic := str "mov"; arguments := [Cat WordB (Chr "x")];
     formatter := fun gs => ret (str "MOVX") |}.

(** An instruction with one argument, a run of word characters. *)
Definition mov1 : Instruction unit :=
  {| mnemonic := str "mov"; arguments := [plus word];
     formatter := fun _ => ret (str "MOV1") |}.

(** The same sections with [nop] alone, and with no prologue or epilogue. *)
Definition nop_only : Assembler unit :=
  {| start_formatter := []; end_formatter := [];
     instruction_set :=
       {| section_start_formatter := section_start_formatter iset;
          section_end_formatter := section_end_formatter iset;
          instructions := [nop] |} |}.

(** An instruction whose mnemonic begins with a space. *)
Definition spaced : Assembler unit :=
  {| start_formatter := []; end_formatter := [];
     instruction_set :=
       {| section_start_formatter := section_start_formatter iset;
          section_end_formatter := section_end_formatter iset;
          instructions :=
            [{| mnemonic := str " mov"; arguments := [plus word; plus word];
                formatter := fun _ => ret (str "MOV") |}] |} |}.

(** The same instruction set with an empty prologue and epilogue. *)
Definition bare : Assembler unit :=
  {| start_formatter := []; end_formatter := []; instruction_set := iset |}.

(** Pure section formatters in a program that has a state. *)
Definition quiet : Assembler nat :=
  {| start_formatter := str "BEGIN"; end_formatter := str "FINISH";
     instruction_set :=
       {| section_start_formatter := fun n => ret (str "START " ++ show n);
          section_end_formatter := fun n => ret (str "END " ++ show n);
          instructions :=
            [{| mnemonic := str "nop"; arguments := [];
                formatter := fun _ => ret (str "NOP") |}] |} |}.

(** A section formatter that counts its calls in the state. *)
Definition counting (n : option text) : M nat text :=
  fun w => (Return (decimal w), S w).

Definition counter : Assembler nat :=
  {| start_formatter := []; end_formatter := [];
     instruction_set :=
       {| section_start_formatter := counting;
          section_end_formatter := counting;
          instructions := [] |} |}.

End Demo.

(** ** Plain text functions that describe what the patterns pick *)

Fixpoint take_while (p : ascii -> bool) (s : text) : text :=
  match s with
  | c :: s' => if p c then c :: take_while p s' else []
  | [] => []
  end.

Definition notcolon (c : ascii) : bool := negb (code c =? 58).

Definition notsemicolon (c : ascii) : bool := negb (code c =? 59).

Definition notlinebreak (c : ascii) : bool := negb (islinebreak c).

(** What follows the first colon of a line. *)
Definition after_colon (line : text) : text := tl (drop_while notcolon line).

(** The line up to its first colon, the colon included. *)
Definition upto_colon (line : text) : text :=
  firstn (length line - length (after_colon line)) line.

(** The run of word characters after the leading white space. *)
Definition label_name (line : text) : text :=
  take_while isword (drop_while isspace line).

(** A list of lines without the one empty line it may end with: what
    [splitlines] gives back of the lines joined by line feeds. *)
Fixpoint chomp (l : list text) : list text :=
  match l with
  | [] => []
  | [x] => match x with [] => [] | _ :: _ => [x] end
  | x :: l' => x :: chomp l'
  end.

(** The shape of a line with a label prefix: white space, a run of word
    characters, white space, a colon, the rest. *)
Definition label_shape (w1 id w2 rest line : text) : Prop :=
  line = w1 ++ id ++ w2 ++ ":"%char :: rest
  /\ forallb isspace w1 = true
  /\ id <> [] /\ forallb isword id = true
  /\ forallb isspace w2 = true.


(** A line with a label prefix whose remainder has a label prefix. *)
Definition double_label (line : text) : Prop :=
  is_label_declaration line = true
  /\ is_label_declaration (after_colon line) = true.


(** The name on the last section boundary among the lines, or [d]. *)
Definition last_name (lines : list text) (d : option text) : option text :=
  fold_left
    (fun acc l => if is_section_boundary l then Some (label_name l) else acc)
    lines d.

(** The text of an argument list: one text for each grammar, matched by
    it, with a comma between two of them and white space allowed around
    the comma. *)
Inductive args_text : list regex -> text -> Prop :=
| args_none : args_text [] []
| args_one g t : matches g t -> args_text [g] t
| args_more g t s1 s2 gs body :
    matches g t ->
    forallb isspace s1 = true -> forallb isspace s2 = true ->
    gs <> [] -> args_text gs body ->
    args_text (g :: gs) (t ++ s1 ++ ","%char :: s2 ++ body).

(** ** Patterns as text

    [Instruction.__init__] builds its pattern as a text: every argument
    is pasted, as [str] gives it, between a pair of parentheses.  The
    text is compiled when [re.fullmatch] is called with it.

    [compile] below is the parser of [re] on a fragment of the pattern
    language: literal characters, a backslash before a character that is
    no ASCII letter or digit, [\s \S \w \W \d \D \b], the dot, [^] and
    [$], capturing and non-capturing groups, alternation, and the greedy
    [*], [?] and [+], the last one on an item without a group inside.
    A text that [re] refuses is [ReError]; a text that uses anything else
    of the language (sets, braces, lazy or possessive repetitions, [+] on
    an item with a group inside, named groups, look-around, flags, other
    escapes) is [Unsupported]: the model does not say what the code does
    with it.  A reference [\1] to [\9] to a group is read as far as [re]
    checks it when it compiles: a reference to a group that is still open
    or does not exist yet is an error, any other one is [Unsupported]. *)

(** An argument of [Instruction]: [re.Pattern | str].  A compiled pattern
    is kept by the text that [str] gives of it, its [repr]. *)
Inductive argument : Type :=
| Text (s : text)
| Pattern (repr : text).

(** [str(arg)] inside the f-string. *)
Definition str_of (a : argument) : text :=
  match a with Text s => s | Pattern repr => repr end.

(** The characters that [re.escape] puts a backslash before. *)
Definition special (c : ascii) : bool :=
  let n := code c in
  between 9 13 n || (n =? 32) || (n =? 35) || (n =? 36) || (n =? 38)
  || between 40 43 n || between 45 46 n || (n =? 63) || between 91 94 n
  || between 123 126 n.

Definition backslash : ascii := ascii_of_nat 92.

Definition escape_char (c : ascii) : text :=
  if special c then [backslash; c] else [c].

(** [re.escape]. *)
Definition escape (s : text) : text := flat_map escape_char s.

(** Line 10: the arguments, each between parentheses, joined by the
    separator, inside a non-capturing group. *)
Definition arguments_str (arguments : list argument) : text :=
  str "(?:"
  ++ join (str "\s*,\s*")
       (map (fun arg_syntax => str "(" ++ str_of arg_syntax ++ str ")") arguments)
  ++ str ")".

(** Line 11: [pattern_str]. *)
Definition pattern_str (mnemonic : text) (arguments : list argument) : text :=
  str "(?:\s*" ++ escape mnemonic ++ str "\s*" ++ arguments_str arguments
  ++ str "\s*" ++ str ")".

(** Why a text does not compile. *)
Inductive compile_error : Type := ReError | Unsupported.

Inductive compiled : Type :=
| Compiled (r : regex)
| NotCompiled (e : compile_error).

(** What the parser read last: nothing that matters, a backslash, an
    opening parenthesis, an opening parenthesis and a question mark, a
    repetition, an assertion (which takes no repetition), or a backslash
    and a digit. *)
Inductive mode : Type := Normal | Esc | Open | OpenQ | Quant | At | Ref (d : nat).

(** A group that is open: whether it captures, and the alternatives and
    the sequence of the pattern around it, as far as they were read. *)
Record open_group : Type := {
  capturing : bool;
  outer_alts : list regex;
  outer_branch : list regex
}.

(** The state of the parser: the finished alternatives and the items of
    the alternative being read (both latest first) of the innermost open
    group, and the groups that are open around it. *)
Record pstate : Type := {
  pmode : mode;
  alts : list regex;
  branch : list regex;
  stack : list open_group
}.

Inductive scan_result : Type :=
| Scanning (st : pstate)
| Failed (e : compile_error).

(** A sequence and an alternation of patterns, nested to the right. *)
Fixpoint cat_list (l : list regex) : regex :=
  match l with
  | [] => Eps
  | [r] => r
  | r :: l' => Cat r (cat_list l')
  end.

Fixpoint alt_list (l : list regex) : regex :=
  match l with
  | [] => Eps
  | [r] => r
  | r :: l' => Alt r (alt_list l')
  end.

(** The pattern of a group when it closes. *)
Definition build (alts branch : list regex) : regex :=
  alt_list (rev (cat_list (rev branch) :: alts)).

Definition wrap (capturing : bool) (r : regex) : regex :=
  if capturing then Group r else r.

(** [^] and [$]; [\b] is [WordB]. *)
Definition at_start : regex :=
  Look (fun pre _ => match pre with [] => true | _ :: _ => false end).

Definition at_finish : regex :=
  Look (fun _ s =>
          match s with
          | [] => true
          | [c] => code c =? 10
          | _ :: _ :: _ => false
          end).

(** The groups of the patterns read so far, and the numbers of the groups
    that are open: a group gets its number when its parenthesis opens. *)
Definition groups_in (l : list regex) : nat := list_sum (map ngroups l).

Fixpoint before (stack : list open_group) : nat :=
  match stack with
  | [] => 0
  | g :: rest =>
      before rest + groups_in (outer_alts g) + groups_in (outer_branch g)
      + (if capturing g then 1 else 0)
  end.

Fixpoint open_numbers (stack : list open_group) : list nat :=
  match stack with
  | [] => []
  | g :: rest =>
      (if capturing g then [before stack] else []) ++ open_numbers rest
  end.

Definition opened (st : pstate) : nat :=
  before (stack st) + groups_in (alts st) + groups_in (branch st).

(** A reference to the group [d]: [re] refuses it when the group does not
    exist yet (invalid group reference) or is not closed yet (cannot refer
    to an open group). *)
Definition refer (st : pstate) (d : nat) : compile_error :=
  if (opened st <? d) || existsb (Nat.eqb d) (open_numbers (stack st))
  then ReError
  else Unsupported.

Definition push (st : pstate) (r : regex) (m : mode) : scan_result :=
  Scanning {| pmode := m; alts := alts st; branch := r :: branch st;
              stack := stack st |}.

(** A repetition applies to the item read last. *)
Definition quantify (st : pstate) (q : regex -> option regex) : scan_result :=
  match branch st with
  | [] => Failed ReError
  | x :: rest =>
      match q x with
      | Some y =>
          Scanning {| pmode := Quant; alts := alts st; branch := y :: rest;
                      stack := stack st |}
      | None => Failed Unsupported
      end
  end.

Definition is_char (c : ascii) (s : string) : bool :=
  match s with
  | String d EmptyString => Ascii.eqb c d
  | _ => false
  end.

(** A character read when nothing is pending. *)
Definition plain (st : pstate) (c : ascii) : scan_result :=
  if Ascii.eqb c backslash then
    Scanning {| pmode := Esc; alts := alts st; branch := branch st; stack := stack st |}
  else if is_char c "." then push st dot Normal
  else if is_char c "^" then push st at_start At
  else if is_char c "$" then push st at_finish At
  else if is_char c "(" then
    Scanning {| pmode := Open; alts := []; branch := [];
                stack := {| capturing := true; outer_alts := alts st;
                            outer_branch := branch st |} :: stack st |}
  else if is_char c ")" then
    match stack st with
    | [] => Failed ReError
    | g :: rest =>
        Scanning {| pmode := Normal; alts := outer_alts g;
                    branch := wrap (capturing g) (build (alts st) (branch st))
                           :: outer_branch g;
                    stack := rest |}
    end
  else if is_char c "|" then
    Scanning {| pmode := Normal; alts := cat_list (rev (branch st)) :: alts st;
                branch := []; stack := stack st |}
  else if is_char c "*" then quantify st (fun x => Some (Star x))
  else if is_char c "+" then
    quantify st (fun x => if ngroups x =? 0 then Some (Cat x (Star x)) else None)
  else if is_char c "?" then quantify st (fun x => Some (Alt x Eps))
  else if is_char c "[" || is_char c "{" then Failed Unsupported
  else push st (Chr c) Normal.

(** The character after a backslash. *)
Definition escaped (st : pstate) (c : ascii) : scan_result :=
  if is_char c "s" then push st ws Normal
  else if is_char c "S" then push st (Cls (fun x => negb (isspace x))) Normal
  else if is_char c "w" then push st word Normal
  else if is_char c "W" then push st (Cls (fun x => negb (isword x))) Normal
  else if is_char c "d" then push st digit Normal
  else if is_char c "D" then push st (Cls (fun x => negb (isdecimal x))) Normal
  else if is_char c "b" then push st WordB At
  else if between 49 57 (code c) then
    Scanning {| pmode := Ref (code c - 48); alts := alts st;
                branch := branch st; stack := stack st |}
  else if between 48 57 (code c) || between 65 90 (code c)
          || between 97 122 (code c)
  then Failed Unsupported
  else push st (Chr c) Normal.

Definition repetition (c : ascii) : bool := is_char c "*" || is_char c "+" || is_char c "?".

(** One character. *)
Definition step (st : pstate) (c : ascii) : scan_result :=
  match pmode st with
  | Normal => plain st c
  | Esc => escaped st c
  | Open =>
      if is_char c "?" then
        Scanning {| pmode := OpenQ; alts := alts st; branch := branch st;
                    stack := stack st |}
      else plain st c
  | OpenQ =>
      if is_char c ":" then
        match stack st with
        | [] => Failed ReError
        | g :: rest =>
            Scanning {| pmode := Normal; alts := alts st; branch := branch st;
                        stack := {| capturing := false;
                                    outer_alts := outer_alts g;
                                    outer_branch := outer_branch g |} :: rest |}
        end
      else Failed Unsupported
  | Quant =>
      if is_char c "*" then Failed ReError
      else if is_char c "+" || is_char c "?" then Failed Unsupported
      else plain st c
  | At =>
      if repetition c then Failed ReError else plain st c
  | Ref d =>
      if between 48 57 (code c) then Failed Unsupported
      else Failed (refer st d)
  end.

Fixpoint scan (st : pstate) (s : text) : scan_result :=
  match s with
  | [] => Scanning st
  | c :: s' =>
      match step st c with
      | Scanning st' => scan st' s'
      | Failed e => Failed e
      end
  end.

Definition start : pstate :=
  {| pmode := Normal; alts := []; branch := []; stack := [] |}.

(** The end of the text: nothing may be pending, no group may be open. *)
Definition finish (st : pstate) : compiled :=
  match pmode st with
  | Esc | OpenQ => NotCompiled ReError
  | Ref d => NotCompiled (refer st d)
  | _ =>
      match stack st with
      | [] => Compiled (build (alts st) (branch st))
      | _ :: _ => NotCompiled ReError
      end
  end.

(** [re.compile] on the fragment. *)
Definition compile (s : text) : compiled :=
  match scan start s with
  | Scanning st => finish st
  | Failed e => NotCompiled e
  end.

(** [re.fullmatch(pattern, line)] with the pattern as a text: the text
    is compiled, then matched. *)
Inductive searched : Type :=
| Matched (groups : captures)
| Unmatched
| Uncompiled (e : compile_error).

Definition fullmatch_str (p line : text) : searched :=
  match compile p with
  | Compiled r =>
      match fullmatch r line with
      | Some groups => Matched groups
      | None => Unmatched
      end
  | NotCompiled e => Uncompiled e
  end.

(** The same state with more groups open around it. *)
Definition deeper (st : pstate) (around : list open_group) : pstate :=
  {| pmode := pmode st; alts := alts st; branch := branch st;
     stack := stack st ++ around |}.

(** The modes in which an item may begin. *)
Definition ready (m : mode) : bool :=
  match m with
  | Normal | Open | Quant | At => true
  | Esc | OpenQ | Ref _ => false
  end.

(** The items of an argument list: the groups and what separates them. *)
Fixpoint items (rs : list regex) : list regex :=
  match rs with
  | [] => []
  | [r] => [Group r]
  | r :: rest => Group r :: Star ws :: Chr "," :: Star ws :: items rest
  end.

(** What [pattern_str] compiles to when the grammars compile to [rs]. *)
Definition compiled_pattern (mnemonic : text) (rs : list regex) : regex :=
  cat_list (Star ws :: map Chr mnemonic
            ++ [Star ws; arguments_regex rs; Star ws]).

(** Every argument on its own: the patterns that the texts of the
    arguments compile to, when they all do.  For a [str] the text is the
    grammar; for a compiled pattern it is its [repr]. *)
Fixpoint compile_each (arguments : list argument) : option (list regex) :=
  match arguments with
  | [] => Some []
  | arg :: rest =>
      match compile (str_of arg), compile_each rest with
      | Compiled r, Some rs => Some (r :: rs)
      | _, _ => None
      end
  end.

(** * Properties *)

(** ** The character classes, as tables *)

Lemma isspace_table :
  filter (fun n => isspace (ascii_of_nat n)) (seq 0 256)
  = [9; 10; 11; 12; 13; 28; 29; 30; 31; 32; 133; 160].
Proof. vm_compute. reflexivity. Qed.

Lemma islinebreak_table :
  filter (fun n => islinebreak (ascii_of_nat n)) (seq 0 256)
  = [10; 11; 12; 13; 28; 29; 30; 133].
Proof. vm_compute. reflexivity. Qed.

Lemma isword_table :
  filter (fun n => isword (ascii_of_nat n)) (seq 0 128)
  = seq 48 10 ++ seq 65 26 ++ [95] ++ seq 97 26
  /\ filter (fun n => isword (ascii_of_nat n)) (seq 128 128)
     = [170; 178; 179; 181; 185; 186; 188; 189; 190]
       ++ seq 192 23 ++ seq 216 31 ++ seq 248 8.
Proof. split; vm_compute; reflexivity. Qed.

(** The line number is written in decimal into the message. *)
Lemma message_cites_line :
  message (StatementOutsideSection 2) = str "statement in line 2 out of section"
  /\ message (InvalidSyntax 12)
     = str "invalid syntax at line 12 (as specified by given instruction set)".
Proof. split; vm_compute; reflexivity. Qed.

(** ** The matcher against the relations *)

Lemma firstn_consumed (s1 rest : text) :
  firstn (length (s1 ++ rest) - length rest) (s1 ++ rest) = s1.
Proof.
  rewrite length_app, Nat.add_sub.
  rewrite firstn_app, Nat.sub_diag, firstn_all. simpl. apply app_nil_r.
Qed.

Lemma run_lang r i pre s rest c c' : run r i pre s rest c c' -> lang r pre s rest.
Proof. induction 1; eauto using lang. Qed.

(** Soundness of one loop, given soundness of its body. *)
Lemma star_loop_sound r i (body : text -> text -> captures -> cont -> option captures) :
  (forall pre s c k out, body pre s c k = Some out ->
     exists s1 rest c', s = s1 ++ rest /\ run r i pre s1 rest c c'
                        /\ k (rev s1 ++ pre) rest c' = Some out) ->
  forall n pre s c k out, star_loop body n pre s c k = Some out ->
    exists s1 rest c', s = s1 ++ rest /\ run (Star r) i pre s1 rest c c'
                       /\ k (rev s1 ++ pre) rest c' = Some out.
Proof.
  intros Hbody n. induction n as [|n IH]; intros pre s c k out H; simpl in H.
  - exists [], s, c. repeat split; [constructor | exact H].
  - destruct (body pre s c _) as [o|] eqn:Hb.
    + inversion H; subst o; clear H.
      apply Hbody in Hb. destruct Hb as (s1 & rest & c1 & -> & Hr & Hk).
      destruct (length rest <? length (s1 ++ rest)).
      * apply IH in Hk. destruct Hk as (s2 & rest' & c2 & -> & Hr2 & Hk).
        exists (s1 ++ s2), rest', c2. repeat split.
        -- now rewrite app_assoc.
        -- eapply run_StarS; eauto.
        -- now rewrite rev_app_distr, <- app_assoc.
      * exists (s1 ++ []), rest, c1. repeat split.
        -- now rewrite app_nil_r.
        -- eapply run_StarS; eauto. simpl. constructor.
        -- now rewrite app_nil_r.
    + exists [], s, c. repeat split; [constructor | exact H].
Qed.

Lemma rmatch_sound r : forall i pre s c k out,
  rmatch r i pre s c k = Some out ->
  exists s1 rest c', s = s1 ++ rest /\ run r i pre s1 rest c c'
                     /\ k (rev s1 ++ pre) rest c' = Some out.
Proof.
  induction r; intros i pre s caps k out H.
  - exists [], s, caps. repeat split; [constructor | exact H].
  - simpl in H. destruct s as [|x s']; [discriminate|].
    destruct (Ascii.eqb x c) eqn:E; [|discriminate].
    apply Ascii.eqb_eq in E; subst x.
    exists [c], s', caps. repeat split; [constructor | exact H].
  - simpl in H. destruct s as [|x s']; [discriminate|].
    destruct (p x) eqn:E; [|discriminate].
    exists [x], s', caps. repeat split; [now constructor | exact H].
  - simpl in H. destruct (p pre s) eqn:E; [|discriminate].
    exists [], s, caps. repeat split; [now constructor | exact H].
  - simpl in H. apply IHr1 in H. destruct H as (s1 & rest & c1 & -> & Hr1 & H).
    apply IHr2 in H. destruct H as (s2 & rest' & c2 & -> & Hr2 & H).
    exists (s1 ++ s2), rest', c2. repeat split.
    + now rewrite app_assoc.
    + eapply run_Cat; eauto.
    + now rewrite rev_app_distr, <- app_assoc.
  - simpl in H. destruct (rmatch r1 i pre s caps k) eqn:E.
    + inversion H; subst. apply IHr1 in E.
      destruct E as (s1 & rest & c1 & -> & Hr & Hk).
      exists s1, rest, c1. repeat split; [now apply run_AltL | exact Hk].
    + apply IHr2 in H. destruct H as (s1 & rest & c1 & -> & Hr & Hk).
      exists s1, rest, c1. repeat split; [now apply run_AltR | exact Hk].
  - eapply star_loop_sound with (body := rmatch r i) (n := S (length s));
      [exact (IHr i) | exact H].
  - simpl in H. apply IHr in H. destruct H as (s1 & rest & c1 & -> & Hr & Hk).
    rewrite firstn_consumed in Hk.
    exists s1, rest, (upd i (Some s1) c1). repeat split; [now constructor | exact Hk].
Qed.

(** A successful [fullmatch] is a run over the whole text. *)
Lemma fullmatch_run r s gs :
  fullmatch r s = Some gs -> run r 0 [] s [] (repeat None (ngroups r)) gs.
Proof.
  unfold fullmatch. intros H. apply rmatch_sound in H.
  destruct H as (s1 & rest & c' & -> & Hr & Hk).
  unfold at_end in Hk. destruct rest; [|discriminate].
  inversion Hk; subst. now rewrite app_nil_r.
Qed.

(** Completeness of one loop, given completeness of its body. *)
Lemma star_loop_complete r (body : text -> text -> captures -> cont -> option captures) :
  (forall pre s1 rest, lang r pre s1 rest -> forall caps k,
     succeeds k (rev s1 ++ pre) rest -> body pre (s1 ++ rest) caps k <> None) ->
  forall r' pre s1 rest, lang r' pre s1 rest -> r' = Star r ->
  forall n caps k, length (s1 ++ rest) < n ->
    succeeds k (rev s1 ++ pre) rest ->
    star_loop body n pre (s1 ++ rest) caps k <> None.
Proof.
  intros Hbody r' pre s1 rest HL.
  induction HL; intros E; try discriminate E; inversion E; subst; clear E;
    intros n caps k Hn Hk.
  - destruct n as [|n]; [inversion Hn|]. simpl.
    destruct (body pre rest caps _); [discriminate | apply Hk].
  - destruct s1 as [|x s1].
    + simpl in *. now apply IHHL2.
    + destruct n as [|n]; [inversion Hn|].
      cbn [star_loop].
      match goal with |- match ?b with _ => _ end <> None =>
        assert (Hb : b <> None) end.
      { rewrite <- app_assoc. apply Hbody; [exact HL1|].
        intros caps'.
        replace (length (s2 ++ rest) <? length ((x :: s1) ++ s2 ++ rest)) with true.
        - apply IHHL2; [reflexivity| |].
          + rewrite <- app_assoc in Hn. simpl in Hn.
            rewrite length_app in Hn. rewrite length_app in *. simpl in *. lia.
          + now rewrite rev_app_distr, <- app_assoc in Hk.
        - symmetry. apply Nat.ltb_lt. simpl. rewrite !length_app. lia. }
      destruct (body _ _ _ _); [discriminate | contradiction].
Qed.

Lemma rmatch_complete r : forall pre s1 rest, lang r pre s1 rest ->
  forall i caps k, succeeds k (rev s1 ++ pre) rest ->
    rmatch r i pre (s1 ++ rest) caps k <> None.
Proof.
  induction r; intros pre s1 rest HL i caps k Hk.
  - inversion HL; subst. apply Hk.
  - inversion HL; subst. simpl. rewrite Ascii.eqb_refl. apply Hk.
  - inversion HL; subst. simpl.
    match goal with H : p _ = true |- _ => rewrite H end. apply Hk.
  - inversion HL; subst. simpl.
    match goal with H : p _ _ = true |- _ => rewrite H end. apply Hk.
  - inversion HL; subst. simpl. rewrite <- app_assoc.
    apply IHr1; [assumption|]. intros caps'.
    apply IHr2; [assumption|].
    now rewrite rev_app_distr, <- app_assoc in Hk.
  - simpl. destruct (rmatch r1 i pre (s1 ++ rest) caps k) eqn:E; [discriminate|].
    inversion HL; subst.
    + exfalso. revert E. now apply IHr1.
    + now apply IHr2.
  - change (star_loop (rmatch r i) (S (length (s1 ++ rest))) pre (s1 ++ rest) caps k <> None).
    eapply star_loop_complete with (r := r); eauto.
  - inversion HL; subst. simpl. apply IHr; [assumption|].
    intros caps'. apply Hk.
Qed.

(** [fullmatch] succeeds exactly on the texts of the pattern. *)
Lemma fullmatch_complete r s : lang r [] s [] -> fullmatch r s <> None.
Proof.
  intros HL. unfold fullmatch.
  rewrite <- (app_nil_r s) at 1.
  apply rmatch_complete; [assumption|]. intros caps. discriminate.
Qed.

Lemma fullmatch_lang r s gs : fullmatch r s = Some gs -> lang r [] s [].
Proof. intros H. apply fullmatch_run in H. eapply run_lang; eauto. Qed.

Lemma matches_lang g t : matches g t <-> lang g [] t [].
Proof.
  unfold matches. split.
  - destruct (fullmatch g t) eqn:E; [|congruence].
    intros _. eapply fullmatch_lang; eauto.
  - apply fullmatch_complete.
Qed.

(** ** Shapes of texts matched by the label patterns *)

Ltac by_cases_on c :=
  destruct c as [[] [] [] [] [] [] [] []]; vm_compute; intros;
  try discriminate; try reflexivity; try tauto.

Lemma isletter__isword c : isletter_ c = true -> isword c = true.
Proof. by_cases_on c. Qed.

Lemma isletter_digit_isword c : isletter_digit c = true -> isword c = true.
Proof. by_cases_on c. Qed.

Lemma isdecimal_isword c : isdecimal c = true -> isword c = true.
Proof. by_cases_on c. Qed.

Lemma underscore_isword : isword "_" = true.
Proof. reflexivity. Qed.

Lemma colon_not_space c : code c = 58 -> isspace c = false.
Proof. by_cases_on c. Qed.

(** A repetition matches any text it can match character by character. *)
Lemma lang_Star_chars r s : forall pre rest,
  (forall c, In c s -> forall pre' rest', lang r pre' [c] rest') ->
  lang (Star r) pre s rest.
Proof.
  induction s as [|c s IH]; intros pre rest H.
  - constructor.
  - change (c :: s) with ([c] ++ s). apply lang_StarS.
    + apply H. now left.
    + apply IH. intros d Hd. apply H. now right.
Qed.

Lemma lang_Star_Cls p s pre rest :
  forallb p s = true -> lang (Star (Cls p)) pre s rest.
Proof.
  intros H. apply lang_Star_chars. intros c Hc pre' rest'.
  constructor. rewrite forallb_forall in H. now apply H.
Qed.

(** A repetition only matches texts made of what its body matches. *)
Lemma lang_Star_forallb r (q : ascii -> bool) :
  (forall pre s rest, lang r pre s rest -> forallb q s = true) ->
  forall r' pre s rest, lang r' pre s rest -> r' = Star r -> forallb q s = true.
Proof.
  intros Hr r' pre s rest HL.
  induction HL; intros E; try discriminate E; inversion E; subst; clear E.
  - reflexivity.
  - rewrite forallb_app. rewrite (Hr _ _ _ HL1). now rewrite IHHL2.
Qed.

(** Inversion of [lang], one lemma per constructor of patterns. *)
Lemma lang_Chr_inv a pre s rest : lang (Chr a) pre s rest -> s = [a].
Proof. intros H. now inversion H. Qed.

Lemma lang_Cls_inv p pre s rest :
  lang (Cls p) pre s rest -> exists a, s = [a] /\ p a = true.
Proof. intros H. inversion H; subst. eauto. Qed.

Lemma lang_Cat_inv r1 r2 pre s rest :
  lang (Cat r1 r2) pre s rest ->
  exists s1 s2, s = s1 ++ s2 /\ lang r1 pre s1 (s2 ++ rest)
                /\ lang r2 (rev s1 ++ pre) s2 rest.
Proof. intros H. inversion H; subst. eauto. Qed.

Lemma lang_Alt_inv r1 r2 pre s rest :
  lang (Alt r1 r2) pre s rest -> lang r1 pre s rest \/ lang r2 pre s rest.
Proof. intros H. inversion H; subst; auto. Qed.

Lemma lang_Group_inv r pre s rest : lang (Group r) pre s rest -> lang r pre s rest.
Proof. intros H. now inversion H. Qed.

Lemma lang_Cls_forallb p pre s rest :
  lang (Cls p) pre s rest -> forallb p s = true.
Proof.
  intros H. apply lang_Cls_inv in H. destruct H as (a & -> & H).
  simpl. now rewrite H.
Qed.

Lemma lang_Star_Cls_inv p pre s rest :
  lang (Star (Cls p)) pre s rest -> forallb p s = true.
Proof.
  intros H. eapply lang_Star_forallb with (r := Cls p); eauto.
  intros pre' s' rest' H'. now apply lang_Cls_forallb in H'.
Qed.

Lemma lang_Lit m : forall pre rest, lang (Lit m) pre m rest.
Proof.
  induction m as [|c m IH]; intros pre rest; simpl.
  - constructor.
  - change (c :: m) with ([c] ++ m). constructor; [constructor | apply IH].
Qed.

(** The identifier of the patterns matches every identifier of the
    specification. *)
Lemma lang_IDENT id pre rest :
  spec_identifier id = true -> lang IDENT pre id rest.
Proof.
  destruct id as [|c r]; [discriminate|]. simpl.
  intros H. apply andb_true_iff in H. destruct H as [Hc Hr].
  change (c :: r) with ([c] ++ r). unfold IDENT. constructor.
  - apply lang_AltR. constructor. now apply isletter__isword.
  - apply lang_Star_chars. intros d Hd pre' rest'.
    apply lang_AltR, lang_AltL. constructor.
    rewrite forallb_forall in Hr. now apply isletter_digit_isword, Hr.
Qed.

(** What it matches is a non-empty run of word characters. *)
Lemma lang_IDENT_inv id pre rest :
  lang IDENT pre id rest -> id <> [] /\ forallb isword id = true.
Proof.
  unfold IDENT. intros H.
  apply lang_Cat_inv in H. destruct H as (s1 & s2 & -> & H1 & H2).
  assert (F1 : exists a, s1 = [a] /\ isword a = true).
  { apply lang_Alt_inv in H1. destruct H1 as [H1|H1].
    - apply lang_Chr_inv in H1. subst. eauto using underscore_isword.
    - now apply lang_Cls_inv in H1. }
  assert (F2 : forallb isword s2 = true).
  { eapply lang_Star_forallb with (r := Alt (Chr "_") (Alt word digit)); eauto.
    intros pre' s' rest' H'.
    apply lang_Alt_inv in H'. destruct H' as [H'|H'].
    - apply lang_Chr_inv in H'. subst. reflexivity.
    - apply lang_Alt_inv in H'. destruct H' as [H'|H'].
      + now apply lang_Cls_forallb in H'.
      + apply lang_Cls_inv in H'. destruct H' as (a & -> & H').
        simpl. now rewrite isdecimal_isword. }
  destruct F1 as (a & -> & Ha). split; [discriminate|].
  simpl. now rewrite Ha, F2.
Qed.

(** The two label patterns, as shapes of lines. *)
Lemma lang_LABEL w1 id w2 rest :
  forallb isspace w1 = true -> spec_identifier id = true ->
  forallb isspace w2 = true -> forallb isdot rest = true ->
  lang LABEL [] (w1 ++ id ++ w2 ++ ":"%char :: rest) [].
Proof.
  intros H1 H2 H3 H4. unfold LABEL.
  constructor; [now apply lang_Star_Cls|].
  constructor; [now apply lang_Group, lang_IDENT|].
  constructor; [now apply lang_Star_Cls|].
  change (":"%char :: rest) with ([":"%char] ++ rest).
  constructor; [constructor|]. now apply lang_Group, lang_Star_Cls.
Qed.

Lemma lang_BARE w1 id w2 w3 :
  forallb isspace w1 = true -> spec_identifier id = true ->
  forallb isspace w2 = true -> forallb isspace w3 = true ->
  lang BARE [] (w1 ++ id ++ w2 ++ ":"%char :: w3) [].
Proof.
  intros H1 H2 H3 H4. unfold BARE.
  constructor; [now apply lang_Star_Cls|].
  constructor; [now apply lang_Group, lang_IDENT|].
  constructor; [now apply lang_Star_Cls|].
  change (":"%char :: w3) with ([":"%char] ++ w3).
  constructor; [constructor|]. now apply lang_Star_Cls.
Qed.

Lemma lang_LABEL_inv line pre post :
  lang LABEL pre line post ->
  exists w1 id w2 rest,
    line = w1 ++ id ++ w2 ++ ":"%char :: rest
    /\ forallb isspace w1 = true
    /\ id <> [] /\ forallb isword id = true
    /\ forallb isspace w2 = true /\ forallb isdot rest = true.
Proof.
  unfold LABEL. intros H.
  apply lang_Cat_inv in H. destruct H as (w1 & t1 & -> & H1 & H).
  apply lang_Cat_inv in H. destruct H as (id & t2 & -> & H2 & H).
  apply lang_Cat_inv in H. destruct H as (w2 & t3 & -> & H3 & H).
  apply lang_Cat_inv in H. destruct H as (c & rest & -> & H4 & H5).
  apply lang_Star_Cls_inv in H1. apply lang_Star_Cls_inv in H3.
  apply lang_Group_inv, lang_IDENT_inv in H2. destruct H2 as [Hne Hid].
  apply lang_Chr_inv in H4. subst c.
  apply lang_Group_inv, lang_Star_Cls_inv in H5.
  exists w1, id, w2, rest. repeat split; auto.
Qed.

Lemma lang_BARE_inv line pre post :
  lang BARE pre line post ->
  exists w1 id w2 w3,
    line = w1 ++ id ++ w2 ++ ":"%char :: w3
    /\ forallb isspace w1 = true
    /\ id <> [] /\ forallb isword id = true
    /\ forallb isspace w2 = true /\ forallb isspace w3 = true.
Proof.
  unfold BARE. intros H.
  apply lang_Cat_inv in H. destruct H as (w1 & t1 & -> & H1 & H).
  apply lang_Cat_inv in H. destruct H as (id & t2 & -> & H2 & H).
  apply lang_Cat_inv in H. destruct H as (w2 & t3 & -> & H3 & H).
  apply lang_Cat_inv in H. destruct H as (c & w3 & -> & H4 & H5).
  apply lang_Star_Cls_inv in H1. apply lang_Star_Cls_inv in H3.
  apply lang_Group_inv, lang_IDENT_inv in H2. destruct H2 as [Hne Hid].
  apply lang_Chr_inv in H4. subst c.
  apply lang_Star_Cls_inv in H5.
  exists w1, id, w2, w3. repeat split; auto.
Qed.

Lemma drop_while_split p s :
  exists t, s = t ++ drop_while p s /\ forallb p t = true.
Proof.
  induction s as [|c s (t & E & F)]; simpl.
  - now exists [].
  - destruct (p c) eqn:Hc.
    + exists (c :: t). simpl. rewrite Hc, F. now rewrite <- E.
    + now exists [].
Qed.

Lemma code_colon d : (code d =? 58) = true -> d = ":"%char.
Proof. by_cases_on d. Qed.

(** A label declaration of the specification is an identifier, a colon and
    what follows. *)
Lemma spec_label_declaration_shape line :
  spec_label_declaration line = true ->
  exists id rest, line = id ++ ":"%char :: rest /\ spec_identifier id = true.
Proof.
  destruct line as [|c r]; [discriminate|]. simpl.
  intros H. apply andb_true_iff in H. destruct H as [Hc H].
  destruct (drop_while_split isletter_digit r) as (t & E & F).
  destruct (drop_while isletter_digit r) as [|d rest]; [discriminate|].
  apply code_colon in H. subst d.
  exists (c :: t), rest. split.
  - simpl. now rewrite <- E.
  - simpl. now rewrite Hc, F.
Qed.

Lemma is_label_declaration_lang line :
  is_label_declaration line = true <-> lang LABEL [] line [].
Proof.
  unfold is_label_declaration. split.
  - destruct (fullmatch LABEL line) eqn:E; [|discriminate].
    intros _. eapply fullmatch_lang; eauto.
  - intros H. apply fullmatch_complete in H.
    now destruct (fullmatch LABEL line).
Qed.

Lemma is_section_boundary_lang line :
  is_section_boundary line = true <-> lang BARE [] line [].
Proof.
  unfold is_section_boundary. split.
  - destruct (fullmatch BARE line) eqn:E; [|discriminate].
    intros _. eapply fullmatch_lang; eauto.
  - intros H. apply fullmatch_complete in H.
    now destruct (fullmatch BARE line).
Qed.

(** ** Blank lines *)

Lemma lstrip_nil s : lstrip s = [] -> forallb isspace s = true.
Proof.
  induction s as [|c s IH]; simpl; [reflexivity|].
  destruct (isspace c); [exact IH | discriminate].
Qed.

Lemma lstrip_head s c r : lstrip s = c :: r -> isspace c = false.
Proof.
  induction s as [|d s IH]; simpl; [discriminate|].
  destruct (isspace d) eqn:E; [exact IH|].
  intros H. inversion H; subst. exact E.
Qed.

Lemma forallb_rev (p : ascii -> bool) s : forallb p (rev s) = forallb p s.
Proof.
  induction s as [|c s IH]; simpl; [reflexivity|].
  rewrite forallb_app, IH. simpl. rewrite andb_true_r. apply andb_comm.
Qed.

Lemma strip_nil s : strip s = [] -> forallb isspace s = true.
Proof.
  unfold strip, rstrip. intros H.
  assert (H' : lstrip (rev (lstrip s)) = []).
  { apply (f_equal (@rev ascii)) in H. now rewrite rev_involutive in H. }
  apply lstrip_nil in H'. rewrite forallb_rev in H'.
  destruct (lstrip s) as [|c r] eqn:E.
  - now apply lstrip_nil.
  - apply lstrip_head in E. simpl in H'. now rewrite E in H'.
Qed.

(** A blank line is made of white space. *)
Lemma blank_spaces line : blank line = true -> forallb isspace line = true.
Proof.
  unfold blank. intros H. apply orb_true_iff in H. destruct H as [H|H].
  - now destruct line.
  - apply strip_nil. now destruct (strip line).
Qed.

(** So it has no colon, and is no section boundary. *)
Lemma blank_not_boundary line : blank line = true -> fullmatch BARE line = None.
Proof.
  intros H. apply blank_spaces in H.
  destruct (fullmatch BARE line) eqn:E; [|reflexivity].
  apply fullmatch_lang, lang_BARE_inv in E.
  destruct E as (w1 & id & w2 & w3 & -> & _).
  rewrite !forallb_app in H. simpl in H.
  rewrite !andb_false_r in H. discriminate.
Qed.

(** ** Groups *)

Lemma upd_length (A : Type) i (x : A) l : length (upd i x l) = length l.
Proof.
  revert i. induction l as [|y l IH]; intros [|i]; simpl; auto.
Qed.


Lemma run_length r i pre s rest c c' :
  run r i pre s rest c c' -> length c' = length c.
Proof.
  induction 1; try reflexivity; try congruence.
  now rewrite upd_length.
Qed.

(** A pattern without groups leaves the groups as they are. *)
Lemma run_groupfree r i pre s rest c c' :
  run r i pre s rest c c' -> ngroups r = 0 -> c' = c.
Proof.
  induction 1; simpl; intros E; try reflexivity; try discriminate E.
  - assert (ngroups r1 = 0) by lia. assert (ngroups r2 = 0) by lia.
    rewrite IHrun2, IHrun1; auto.
  - apply IHrun. lia.
  - apply IHrun. lia.
  - rewrite IHrun2, IHrun1; auto.
Qed.

Lemma run_Cat_inv r1 r2 i pre s rest c c2 :
  run (Cat r1 r2) i pre s rest c c2 ->
  exists s1 s2 c1, s = s1 ++ s2 /\ run r1 i pre s1 (s2 ++ rest) c c1
                   /\ run r2 (i + ngroups r1) (rev s1 ++ pre) s2 rest c1 c2.
Proof. intros H. inversion H; subst. eauto 6. Qed.

Lemma run_Group_inv r i pre s rest c c2 :
  run (Group r) i pre s rest c c2 ->
  exists c1, run r (S i) pre s rest c c1 /\ c2 = upd i (Some s) c1.
Proof. intros H. inversion H; subst. eauto. Qed.


Lemma ngroups_Lit m : ngroups (Lit m) = 0.
Proof. induction m; simpl; auto. Qed.

(** The argument list has one group for each grammar, and the groups the
    grammars bring themselves. *)
Lemma ngroups_arguments_regex args :
  ngroups (arguments_regex args) = length args + list_sum (map ngroups args).
Proof.
  induction args as [|g args IH]; [reflexivity|].
  destruct args as [|g2 args].
  - simpl. lia.
  - change (arguments_regex (g :: g2 :: args))
      with (Cat (Group g) (Cat (Star ws) (Cat (Chr ",")
              (Cat (Star ws) (arguments_regex (g2 :: args)))))).
    cbn [ngroups ws]. rewrite IH. simpl. lia.
Qed.

Lemma ngroups_pattern (W : Type) (i : Instruction W) :
  ngroups (pattern i)
  = length (arguments i) + list_sum (map ngroups (arguments i)).
Proof.
  unfold pattern. cbn [ngroups ws]. rewrite ngroups_Lit, ngroups_arguments_regex.
  lia.
Qed.


Lemma fullmatch_length r s gs :
  fullmatch r s = Some gs -> length gs = ngroups r.
Proof.
  intros H. apply fullmatch_run, run_length in H.
  now rewrite repeat_length in H.
Qed.


(** ** Patterns without assertions *)

Lemma lang_lookfree r pre s rest :
  lang r pre s rest -> lookfree r = true ->
  forall pre' rest', lang r pre' s rest'.
Proof.
  induction 1; simpl; intros E pre' rest'; try discriminate E;
    try (apply andb_true_iff in E; destruct E as [E1 E2]);
    eauto using lang.
Qed.

(** ** The second loop *)

Section Loop.

Variable W : Type.
Implicit Types (a : Assembler W) (iset : InstructionSet W) (w : W).

Lemma bind_eq (A B : Type) (c : M W A) (f : A -> M W B) w :
  bind c f w
  = match c w with
    | (Return x, w') => f x w'
    | (Raise e, w') => (Raise e, w')
    end.
Proof. reflexivity. Qed.

Lemma main_pass_app iset l1 : forall l2 n st w,
  main_pass iset (l1 ++ l2) n st w
  = match main_pass iset l1 n st w with
    | (Return st', w') => main_pass iset l2 (n + length l1) st' w'
    | (Raise e, w') => (Raise e, w')
    end.
Proof.
  induction l1 as [|l l1 IH]; intros l2 n st w; simpl.
  - unfold ret. now rewrite Nat.add_0_r.
  - rewrite !bind_eq. destruct (main_step iset n l st w) as [[st'|e] w'].
    + rewrite IH. now rewrite Nat.add_succ_comm.
    + reflexivity.
Qed.

(** Blank lines change nothing. *)
Lemma main_step_blank iset n line st w :
  blank line = true -> main_step iset n line st w = (Return st, w).
Proof.
  intros H. unfold main_step. rewrite blank_not_boundary by exact H.
  now rewrite H.
Qed.

Lemma main_pass_blank iset pre : forallb blank pre = true ->
  forall n st w, main_pass iset pre n st w = (Return st, w).
Proof.
  induction pre as [|l pre IH]; simpl; intros H n st w; [reflexivity|].
  apply andb_true_iff in H. destruct H as [Hl Hpre].
  rewrite bind_eq, main_step_blank by exact Hl. now apply IH.
Qed.

(** A statement while no section is open: rejected, one way or the other. *)
Lemma dispatch_outside (table : list (Instruction W)) n line st w :
  sections_started st = 0 ->
  dispatch table n line st w
  = (Raise (Asm (if existsb (fun i => accepts i line) table
                 then StatementOutsideSection (n + 1)
                 else InvalidSyntax (n + 1))), w).
Proof.
  intros H0. induction table as [|i table IH]; simpl; [reflexivity|].
  unfold accepts at 1. destruct (fullmatch (pattern i) line).
  - now rewrite H0.
  - exact IH.
Qed.

Lemma emitted_unfold a t new_text w :
  truthy (strip t) = true ->
  label_pass (splitlines (strip_comments t)) = Return new_text ->
  emitted a t w
  = match main_pass (instruction_set a) (rewritten new_text) 0 initial w with
    | (Return st, w') => close_last (instruction_set a) st w'
    | (Raise e, w') => (Raise e, w')
    end.
Proof.
  intros H1 H2. unfold emitted. rewrite H1. cbn [negb].
  rewrite bind_eq. unfold lift. rewrite H2. reflexivity.
Qed.

Lemma assemble_raise a t b e w w' :
  emitted a t w = (Raise e, w') -> assemble a t b w = (Raise e, w').
Proof. intros H. unfold assemble, bind. now rewrite H. Qed.

(** When no line opens a section the last step still runs: the end
    formatter is called with the initial name, the empty text. *)
Lemma emitted_no_section a t new_text w :
  truthy (strip t) = true ->
  label_pass (splitlines (strip_comments t)) = Return new_text ->
  forallb blank (rewritten new_text) = true ->
  emitted a t w
  = try_except_AttributeError
      (bind (section_end_formatter (instruction_set a) (Some []))
            (fun e => ret [e])) [] w.
Proof.
  intros H1 H2 H3. rewrite emitted_unfold with (new_text := new_text) by assumption.
  rewrite main_pass_blank by exact H3. reflexivity.
Qed.

(** With [binary_output] the call raises where it would have returned. *)
Lemma binary_output_raises a t s w w' :
  assemble a t false w = (Return (Str s), w') ->
  assemble a t true w = (Raise TypeError, w').
Proof.
  unfold assemble, bind. destruct (emitted a t w) as [[res|e] w1].
  - unfold ret, lift, bytes. intros H. now inversion H.
  - discriminate.
Qed.

(** A boundary line while a section is open: both formatters are called
    with the name on that line. *)
Lemma open_section_open iset name st w :
  sections_started st <> 0 ->
  open_section iset name st w
  = bind (section_end_formatter iset name) (fun e =>
    bind (section_start_formatter iset name) (fun s =>
    ret {| result := (result st ++ [e]) ++ [s];
           sections_started := S (sections_started st);
           last_section_name := name |})) w.
Proof.
  intros H. unfold open_section.
  apply Nat.eqb_neq in H. rewrite H. cbn [negb].
  unfold bind, ret. destruct (section_end_formatter iset name w) as [[e|e] w1];
    reflexivity.
Qed.

End Loop.

(** ** Leading white space of a statement

    The remainder that the first loop splits off keeps the space that
    followed the colon.  For an instruction whose mnemonic does not begin
    with white space and whose grammars have no assertions, the pattern
    matches the remainder with and without that space alike. *)

Lemma star_loop_pre_indep (body : text -> text -> captures -> cont -> option captures) :
  (forall p1 p2 s c k1 k2,
      (forall q1 q2 s' c', k1 q1 s' c' = k2 q2 s' c') ->
      body p1 s c k1 = body p2 s c k2) ->
  forall n p1 p2 s c k1 k2,
    (forall q1 q2 s' c', k1 q1 s' c' = k2 q2 s' c') ->
    star_loop body n p1 s c k1 = star_loop body n p2 s c k2.
Proof.
  intros Hb n. induction n as [|n IH]; intros p1 p2 s c k1 k2 Hk; simpl.
  - apply Hk.
  - rewrite (Hk p1 p2 s c).
    erewrite Hb; [reflexivity|].
    intros q1 q2 s' c'. simpl.
    destruct (length s' <? length s); [now apply IH | apply Hk].
Qed.

Lemma rmatch_pre_indep r : lookfree r = true ->
  forall i p1 p2 s c k1 k2,
    (forall q1 q2 s' c', k1 q1 s' c' = k2 q2 s' c') ->
    rmatch r i p1 s c k1 = rmatch r i p2 s c k2.
Proof.
  induction r; intros HL i p1 p2 s caps k1 k2 Hk; try discriminate HL.
  - apply Hk.
  - simpl. destruct s as [|x s]; [reflexivity|]. destruct (Ascii.eqb x c); auto.
  - simpl. destruct s as [|x s]; [reflexivity|]. destruct (p x); auto.
  - simpl in *. apply andb_true_iff in HL. destruct HL as [H1 H2].
    apply IHr1; [assumption|]. intros. now apply IHr2.
  - simpl in *. apply andb_true_iff in HL. destruct HL as [H1 H2].
    rewrite (IHr1 H1 i p1 p2 s caps k1 k2 Hk).
    rewrite (IHr2 H2 (i + ngroups r1) p1 p2 s caps k1 k2 Hk). reflexivity.
  - change (star_loop (rmatch r i) (S (length s)) p1 s caps k1
            = star_loop (rmatch r i) (S (length s)) p2 s caps k2).
    apply star_loop_pre_indep; [|assumption].
    intros. now apply IHr.
  - simpl in *. apply IHr; [assumption|]. intros. apply Hk.
Qed.

Lemma lookfree_Lit m : lookfree (Lit m) = true.
Proof. induction m; simpl; auto. Qed.

Lemma lookfree_arguments_regex args :
  forallb lookfree args = true -> lookfree (arguments_regex args) = true.
Proof.
  induction args as [|g args IH]; [reflexivity|].
  intros H. simpl in H. apply andb_true_iff in H. destruct H as [Hg Ha].
  destruct args as [|g2 args]; [exact Hg|].
  change (arguments_regex (g :: g2 :: args))
    with (Cat (Group g) (Cat (Star ws) (Cat (Chr ",")
            (Cat (Star ws) (arguments_regex (g2 :: args)))))).
  cbn [lookfree ws]. rewrite Hg, IH by exact Ha. reflexivity.
Qed.

(** White space is skipped greedily; at a character that is none the
    loop goes on to the rest of the pattern. *)
Lemma star_loop_ws_stop i n pre x s caps (k : cont) :
  isspace x = false ->
  star_loop (rmatch ws i) (S n) pre (x :: s) caps k = k pre (x :: s) caps.
Proof. intros H. simpl. now rewrite H. Qed.

Lemma star_loop_ws_step i n pre y s caps (k : cont) :
  isspace y = true ->
  star_loop (rmatch ws i) (S n) pre (y :: s) caps k
  = match star_loop (rmatch ws i) n (y :: pre) s caps k with
    | Some c => Some c
    | None => k pre (y :: s) caps
    end.
Proof.
  intros H. simpl. rewrite H.
  replace (length s <? S (length s)) with true; [reflexivity|].
  symmetry. apply Nat.ltb_lt. lia.
Qed.

Lemma space_isspace : isspace " " = true.
Proof. reflexivity. Qed.

Lemma leading_space_ignored (W : Type) (i : Instruction W) c m x s :
  mnemonic i = c :: m -> isspace c = false ->
  forallb lookfree (arguments i) = true ->
  isspace x = false ->
  fullmatch (pattern i) (" "%char :: x :: s) = fullmatch (pattern i) (x :: s).
Proof.
  intros Hm Hc Ha Hx. unfold fullmatch.
  set (caps := repeat None (ngroups (pattern i))).
  unfold pattern. rewrite Hm.
  set (R := Cat (Lit (c :: m))
              (Cat (Star ws) (Cat (arguments_regex (arguments i)) (Star ws)))).
  assert (HR : lookfree R = true).
  { unfold R. cbn [lookfree ws Lit].
    rewrite lookfree_Lit, lookfree_arguments_regex by exact Ha. reflexivity. }
  cbn [rmatch].
  change (length (" "%char :: x :: s)) with (S (length (x :: s))).
  rewrite star_loop_ws_step by exact space_isspace.
  rewrite !star_loop_ws_stop by exact Hx.
  rewrite (@rmatch_pre_indep R HR _ [" "%char] [] (x :: s) caps at_end at_end)
    by reflexivity.
  destruct (rmatch R (0 + ngroups (Star ws)) [] (x :: s) caps at_end);
    [reflexivity|].
  unfold R. cbn [rmatch Lit].
  destruct (Ascii.eqb " " c) eqn:E; [|reflexivity].
  apply Ascii.eqb_eq in E. subst c. discriminate Hc.
Qed.

(** ** Label splitting *)

Section Splitting.

Variable W : Type.
Implicit Types (a : Assembler W) (iset : InstructionSet W) (w : W).

(** Two lines that every instruction of the table matches alike are
    dispatched alike, but for the line number of the rejection. *)
Lemma dispatch_alike (table : list (Instruction W)) n1 n2 l1 l2 st w :
  (forall i, In i table -> fullmatch (pattern i) l1 = fullmatch (pattern i) l2) ->
  sections_started st <> 0 ->
  dispatch table n1 l1 st w = dispatch table n2 l2 st w
  \/ (dispatch table n1 l1 st w = (Raise (Asm (InvalidSyntax (n1 + 1))), w)
      /\ dispatch table n2 l2 st w = (Raise (Asm (InvalidSyntax (n2 + 1))), w)).
Proof.
  intros H Hs. apply Nat.eqb_neq in Hs.
  induction table as [|i table IH]; simpl.
  - right. split; reflexivity.
  - rewrite <- (H i (or_introl eq_refl)).
    destruct (fullmatch (pattern i) l1).
    + left. now rewrite Hs.
    + apply IH. intros j Hj. apply H. now right.
Qed.

Lemma open_section_started iset name st w st' w' :
  open_section iset name st w = (Return st', w') -> sections_started st' <> 0.
Proof.
  unfold open_section, bind, ret.
  destruct (negb (sections_started st =? 0)).
  - destruct (section_end_formatter iset name w) as [[e|e] w1]; [|discriminate].
    destruct (section_start_formatter iset name w1) as [[s|e'] w2]; [|discriminate].
    intros E. inversion E. simpl. discriminate.
  - destruct (section_start_formatter iset name w) as [[s|e'] w2]; [|discriminate].
    intros E. inversion E. simpl. discriminate.
Qed.

End Splitting.

(** ** Repeated calls *)

Create HintDb pure.

Section Purity.

Variable W : Type.
Implicit Types (a : Assembler W) (iset : InstructionSet W) (w : W).

Lemma pureM_ret (A : Type) (x : A) : pureM (@ret W A x).
Proof. now exists (Return x). Qed.

Lemma pureM_raise (A : Type) e : pureM (@raise W A e).
Proof. now exists (Raise e). Qed.

Lemma pureM_lift (A : Type) (o : outcome A) : pureM (@lift W A o).
Proof. now exists o. Qed.

Lemma pureM_bind (A B : Type) (c : M W A) (f : A -> M W B) :
  pureM c -> (forall x, pureM (f x)) -> pureM (bind c f).
Proof.
  intros [[x|e] Hc] Hf.
  - destruct (Hf x) as [o Ho]. exists o. intros w.
    rewrite bind_eq, Hc. apply Ho.
  - exists (Raise e). intros w. now rewrite bind_eq, Hc.
Qed.

Lemma pureM_try (A : Type) (c : M W A) (d : A) :
  pureM c -> pureM (try_except_AttributeError c d).
Proof.
  intros [o Hc]. unfold try_except_AttributeError.
  exists (match o with Raise AttributeError => Return d | _ => o end).
  intros w. rewrite Hc. destruct o as [x|[]]; reflexivity.
Qed.

#[local] Hint Resolve pureM_ret pureM_raise pureM_lift pureM_bind pureM_try : pure.

Lemma pureM_dispatch (table : list (Instruction W)) n line st :
  (forall i, In i table -> forall gs, pureM (formatter i gs)) ->
  pureM (dispatch table n line st).
Proof.
  induction table as [|i table IH]; intros H; simpl.
  - auto with pure.
  - destruct (fullmatch (pattern i) line).
    + destruct (sections_started st =? 0); [auto with pure|].
      apply pureM_bind; [|auto with pure].
      apply H. now left.
    + apply IH. intros j Hj. apply H. now right.
Qed.

Lemma pureM_main_pass a lines : pure_formatters a ->
  forall n st, pureM (main_pass (instruction_set a) lines n st).
Proof.
  intros (Hs & He & Hi).
  induction lines as [|l lines IH]; intros n st; simpl; [auto with pure|].
  apply pureM_bind; [|intros; apply IH].
  unfold main_step. destruct (fullmatch BARE l).
  - unfold open_section. apply pureM_bind; [|intros; auto with pure].
    destruct (negb (sections_started st =? 0)); auto with pure.
  - destruct (blank l); [auto with pure|]. now apply pureM_dispatch.
Qed.

(** With pure formatters a call neither reads nor changes the state. *)
Lemma pureM_assemble a t b : pure_formatters a -> pureM (assemble a t b).
Proof.
  intros Hp. pose proof Hp as (Hs & He & Hi).
  unfold assemble. apply pureM_bind.
  - unfold emitted. destruct (negb (truthy (strip t))); [auto with pure|].
    apply pureM_bind; [auto with pure|]. intros new_text.
    apply pureM_bind; [now apply pureM_main_pass|]. intros st.
    unfold close_last. auto with pure.
  - intros res. destruct b; auto with pure.
Qed.

End Purity.

(** ** The joined output *)

Lemma filter_truthy_snoc_nil (l : list text) :
  filter truthy (l ++ [[]]) = filter truthy l.
Proof. rewrite filter_app. simpl. apply app_nil_r. Qed.

Lemma join_cons (sep x : text) (l : list text) :
  l <> [] -> join sep (x :: l) = x ++ sep ++ join sep l.
Proof. now destruct l. Qed.

Lemma join_snoc (sep : text) (l : list text) (x : text) :
  l <> [] -> join sep (l ++ [x]) = join sep l ++ sep ++ x.
Proof.
  induction l as [|y l IH]; intros H; [contradiction|].
  destruct l as [|z l].
  - reflexivity.
  - change ((y :: z :: l) ++ [x]) with (y :: (z :: l) ++ [x]).
    rewrite !join_cons by discriminate.
    rewrite IH by discriminate. now rewrite <- !app_assoc.
Qed.

(** The joined text begins as its first non-empty entry begins. *)
Lemma join_starts (l : list text) :
  starts_with_LF (join [LF] (filter truthy l)) = true ->
  exists e, In e l /\ starts_with_LF e = true.
Proof.
  destruct (filter truthy l) as [|e l'] eqn:E; [discriminate|].
  assert (He : In e l /\ truthy e = true).
  { apply filter_In. rewrite E. now left. }
  destruct He as [Hin Ht]. intros H. exists e. split; [exact Hin|].
  destruct e as [|c e]; [discriminate|].
  destruct l'; exact H.
Qed.

Lemma starts_with_LF_app (x y : text) :
  x <> [] -> starts_with_LF (x ++ y) = starts_with_LF x.
Proof. now destruct x. Qed.

(** And it ends as its last non-empty entry ends. *)
Lemma join_ends (l : list text) :
  ends_with_LF (join [LF] (filter truthy l)) = true ->
  exists e, In e l /\ ends_with_LF e = true.
Proof.
  destruct (filter truthy l) as [|e0 l0] eqn:E; [discriminate|].
  destruct (@exists_last _ (e0 :: l0)) as (l' & e & E'); [discriminate|].
  rewrite E' in *. clear E' e0 l0.
  assert (He : In e l /\ truthy e = true).
  { apply filter_In. rewrite E. apply in_or_app. right. now left. }
  destruct He as [Hin Ht]. intros H. exists e. split; [exact Hin|].
  assert (Hr : rev e <> []).
  { destruct e; [discriminate|]. simpl. now destruct (rev e). }
  unfold ends_with_LF in *. destruct l' as [|y l'].
  - exact H.
  - rewrite join_snoc in H by discriminate.
    rewrite !rev_app_distr in H. rewrite <- app_assoc in H.
    now rewrite starts_with_LF_app in H.
Qed.

(** ** The pattern text of an instruction, compiled *)

(** The matcher and its continuation. *)

Lemma star_loop_ext (body : text -> text -> captures -> cont -> option captures) :
  (forall pre s c k1 k2,
      (forall p s' c', k1 p s' c' = k2 p s' c') ->
      body pre s c k1 = body pre s c k2) ->
  forall n pre s c k1 k2,
    (forall p s' c', k1 p s' c' = k2 p s' c') ->
    star_loop body n pre s c k1 = star_loop body n pre s c k2.
Proof.
  intros Hb n. induction n as [|n IH]; intros pre s c k1 k2 Hk; simpl.
  - apply Hk.
  - rewrite (Hk pre s c).
    erewrite Hb; [reflexivity|].
    intros p s' c'. simpl.
    destruct (length s' <? length s); [now apply IH | apply Hk].
Qed.

Lemma rmatch_ext r : forall i pre s c k1 k2,
  (forall p s' c', k1 p s' c' = k2 p s' c') ->
  rmatch r i pre s c k1 = rmatch r i pre s c k2.
Proof.
  induction r; intros i pre s caps k1 k2 Hk.
  - apply Hk.
  - simpl. destruct s as [|x s]; [reflexivity|]. destruct (Ascii.eqb x c); auto.
  - simpl. destruct s as [|x s]; [reflexivity|]. destruct (p x); auto.
  - simpl. destruct (p pre s); auto.
  - simpl. apply IHr1. intros. now apply IHr2.
  - simpl. rewrite (IHr1 i pre s caps k1 k2 Hk).
    rewrite (IHr2 (i + ngroups r1) pre s caps k1 k2 Hk). reflexivity.
  - change (star_loop (rmatch r i) (S (length s)) pre s caps k1
            = star_loop (rmatch r i) (S (length s)) pre s caps k2).
    apply star_loop_ext; [|assumption]. intros. now apply IHr.
  - simpl. apply IHr. intros. apply Hk.
Qed.

(** The characters of the mnemonic one by one, or as one literal. *)
Lemma rmatch_literal m : forall T i pre s caps k,
  T <> [] ->
  rmatch (cat_list (map Chr m ++ T)) i pre s caps k
  = rmatch (Cat (Lit m) (cat_list T)) i pre s caps k.
Proof.
  induction m as [|c m IH]; intros T i pre s caps k HT.
  - simpl. now rewrite Nat.add_0_r.
  - assert (N : map Chr m ++ T <> []).
    { destruct m; [exact HT | discriminate]. }
    change (map Chr (c :: m) ++ T) with (Chr c :: (map Chr m ++ T)).
    assert (E : cat_list (Chr c :: map Chr m ++ T)
                = Cat (Chr c) (cat_list (map Chr m ++ T))).
    { destruct (map Chr m ++ T); [contradiction | reflexivity]. }
    rewrite E. simpl.
    destruct s as [|x s]; [reflexivity|].
    destruct (Ascii.eqb x c); [|reflexivity].
    rewrite IH by exact HT. simpl.
    apply rmatch_ext. intros p s' c'.
    now rewrite ngroups_Lit, !Nat.add_0_r.
Qed.

Lemma cat_list_items rs : cat_list (items rs) = arguments_regex rs.
Proof.
  induction rs as [|r rs IH]; [reflexivity|].
  destruct rs as [|r2 rs]; [reflexivity|].
  change (items (r :: r2 :: rs))
    with (Group r :: Star ws :: Chr "," :: Star ws :: items (r2 :: rs)).
  change (arguments_regex (r :: r2 :: rs))
    with (Cat (Group r) (Cat (Star ws) (Cat (Chr ",")
            (Cat (Star ws) (arguments_regex (r2 :: rs)))))).
  rewrite <- IH. simpl. destruct rs; reflexivity.
Qed.

Lemma ngroups_cat_list l : ngroups (cat_list l) = list_sum (map ngroups l).
Proof.
  induction l as [|r l IH]; [reflexivity|].
  destruct l as [|r2 l]; [simpl; lia|].
  change (ngroups (cat_list (r :: r2 :: l)))
    with (ngroups r + ngroups (cat_list (r2 :: l))).
  rewrite IH. reflexivity.
Qed.

Lemma ngroups_compiled_pattern (W : Type) (i : Instruction W) :
  ngroups (compiled_pattern (mnemonic i) (arguments i)) = ngroups (pattern i).
Proof.
  unfold compiled_pattern. rewrite ngroups_cat_list.
  change (map ngroups (Star ws :: map Chr (mnemonic i)
                       ++ [Star ws; arguments_regex (arguments i); Star ws]))
    with (0 :: map ngroups (map Chr (mnemonic i)
                            ++ [Star ws; arguments_regex (arguments i); Star ws])).
  rewrite map_app.
  assert (Z : forall l, list_sum (map ngroups (map Chr (mnemonic i)) ++ l)
                        = list_sum l).
  { intros l. induction (mnemonic i); simpl; auto. }
  simpl list_sum at 1. rewrite Z.
  unfold pattern. simpl. rewrite ngroups_Lit. lia.
Qed.

(** The pattern that the text compiles to and the pattern of the engine
    match every line alike, with the same groups. *)
Lemma fullmatch_compiled_pattern (W : Type) (i : Instruction W) (line : text) :
  fullmatch (compiled_pattern (mnemonic i) (arguments i)) line
  = fullmatch (pattern i) line.
Proof.
  unfold fullmatch. rewrite ngroups_compiled_pattern.
  unfold compiled_pattern, pattern.
  set (T := [Star ws; arguments_regex (arguments i); Star ws]).
  assert (E : cat_list (Star ws :: map Chr (mnemonic i) ++ T)
              = Cat (Star ws) (cat_list (map Chr (mnemonic i) ++ T))).
  { destruct (map Chr (mnemonic i)); reflexivity. }
  rewrite E.
  change (star_loop (rmatch ws 0) (S (length line)) [] line
            (repeat None (ngroups (pattern i)))
            (fun pre' s' caps' =>
               rmatch (cat_list (map Chr (mnemonic i) ++ T))
                 (0 + ngroups (Star ws)) pre' s' caps' at_end)
          = star_loop (rmatch ws 0) (S (length line)) [] line
              (repeat None (ngroups (pattern i)))
              (fun pre' s' caps' =>
                 rmatch (Cat (Lit (mnemonic i)) (cat_list T))
                   (0 + ngroups (Star ws)) pre' s' caps' at_end)).
  apply star_loop_ext.
  - intros. now apply rmatch_ext.
  - intros. apply rmatch_literal. discriminate.
Qed.

(** The parser, piece by piece. *)

Lemma scan_app s1 : forall st s2,
  scan st (s1 ++ s2)
  = match scan st s1 with
    | Scanning st' => scan st' s2
    | Failed e => Failed e
    end.
Proof.
  induction s1 as [|c s1 IH]; intros st s2; simpl; [reflexivity|].
  destruct (step st c); [apply IH | reflexivity].
Qed.

Ltac break_if :=
  match goal with
  | H : context [if ?b then _ else _] |- _ => destruct b eqn:?
  | |- context [if ?b then _ else _] => destruct b eqn:?
  end.

(** A step that succeeds does not look at the groups far around. *)
Lemma step_deeper st c st' around :
  step st c = Scanning st' ->
  step (deeper st around) c = Scanning (deeper st' around).
Proof.
  destruct st as [m a s k]. unfold step, deeper. simpl.
  destruct m; unfold plain, escaped, push, quantify, repetition; simpl;
    intros H; repeat break_if; try discriminate H;
    try (inversion H; subst; reflexivity).
  all: try (destruct k as [|g k]; [discriminate H|];
            inversion H; subst; reflexivity).
  all: try (destruct s as [|x s]; [discriminate H|];
            inversion H; subst; reflexivity).
  all: try (destruct s as [|x s]; [discriminate H|];
            destruct (ngroups x =? 0); [|discriminate H];
            inversion H; subst; reflexivity).
Qed.

Lemma scan_deeper s : forall st st' around,
  scan st s = Scanning st' ->
  scan (deeper st around) s = Scanning (deeper st' around).
Proof.
  induction s as [|c s IH]; intros st st' around H; simpl in *.
  - now inversion H.
  - destruct (step st c) as [st1|e] eqn:E; [|discriminate].
    rewrite (step_deeper _ _ around E). now apply IH.
Qed.

(** After an opening parenthesis a text is read as at the start, when it
    can be read at the start at all. *)
Lemma step_opened a k c st' :
  step {| pmode := Normal; alts := a; branch := []; stack := k |} c = Scanning st' ->
  step {| pmode := Open; alts := a; branch := []; stack := k |} c = Scanning st'.
Proof.
  unfold step. simpl. destruct (Ascii.eqb c "?") eqn:E; [|intros H; exact H].
  apply Ascii.eqb_eq in E. subst c. discriminate.
Qed.


(** A grammar that compiles on its own, pasted between parentheses, is
    read as one item: the group of what it compiles to. *)
Lemma scan_pasted g r st :
  compile g = Compiled r -> ready (pmode st) = true ->
  scan st (str "(" ++ g ++ str ")")
  = Scanning {| pmode := Normal; alts := alts st; branch := Group r :: branch st;
                stack := stack st |}.
Proof.
  intros HC HR. unfold compile in HC.
  destruct (scan start g) as [sf|e] eqn:E; [|discriminate].
  assert (HF : stack sf = [] /\ ready (pmode sf) = true
               /\ r = build (alts sf) (branch sf)).
  { unfold finish in HC. destruct (pmode sf), (stack sf); try discriminate;
      inversion HC; repeat split. }
  destruct HF as (Hk & H1 & ->).
  set (fr := {| capturing := true; outer_alts := alts st; outer_branch := branch st |}).
  assert (HO : scan st (str "(")
               = Scanning {| pmode := Open; alts := []; branch := [];
                             stack := fr :: stack st |}).
  { destruct st as [m a s k]. destruct m; try discriminate HR; reflexivity. }
  change (str "(" ++ g ++ str ")") with (str "(" ++ (g ++ str ")")).
  rewrite scan_app, HO, scan_app.
  assert (HG : exists m', (m' = pmode sf \/ m' = Open) /\
             scan {| pmode := Open; alts := []; branch := []; stack := fr :: stack st |} g
             = Scanning {| pmode := m'; alts := alts sf; branch := branch sf;
                           stack := fr :: stack st |}).
  { pose proof (scan_deeper _ _ (fr :: stack st) E) as D.
    unfold deeper in D. rewrite Hk in D. simpl in D.
    destruct g as [|c g].
    - simpl in E. inversion E; subst sf. exists Open. split; [now right|].
      reflexivity.
    - exists (pmode sf). split; [now left|].
      simpl in D |- *.
      destruct (step {| pmode := Normal; alts := []; branch := [];
                        stack := fr :: stack st |} c) as [s1|e1] eqn:E1;
        [|discriminate].
      now rewrite (step_opened _ _ _ E1). }
  destruct HG as (m' & Hm & ->).
  destruct sf as [mf af sq kf]. simpl in *.
  destruct Hm as [-> | ->]; [destruct mf; try discriminate H1|]; reflexivity.
Qed.

Lemma scan_ws_star st :
  ready (pmode st) = true ->
  scan st (str "\s*")
  = Scanning {| pmode := Quant; alts := alts st; branch := Star ws :: branch st;
                stack := stack st |}.
Proof. destruct st as [m a s k]. destruct m; try discriminate; reflexivity. Qed.

Lemma scan_separator st :
  ready (pmode st) = true ->
  scan st (str "\s*,\s*")
  = Scanning {| pmode := Quant; alts := alts st;
                branch := Star ws :: Chr "," :: Star ws :: branch st;
                stack := stack st |}.
Proof. destruct st as [m a s k]. destruct m; try discriminate; reflexivity. Qed.

Lemma scan_open_noncapturing st :
  ready (pmode st) = true ->
  scan st (str "(?:")
  = Scanning {| pmode := Normal; alts := []; branch := [];
                stack := {| capturing := false; outer_alts := alts st;
                            outer_branch := branch st |} :: stack st |}.
Proof. destruct st as [m a s k]. destruct m; try discriminate; reflexivity. Qed.

Lemma scan_close st g rest :
  ready (pmode st) = true -> stack st = g :: rest ->
  scan st (str ")")
  = Scanning {| pmode := Normal; alts := outer_alts g;
                branch := wrap (capturing g) (build (alts st) (branch st))
                       :: outer_branch g;
                stack := rest |}.
Proof.
  destruct st as [m a s k]. simpl. intros HR ->.
  destruct m; try discriminate; reflexivity.
Qed.

(** An escaped character is read as that character. *)
Lemma scan_escape_char st c :
  ready (pmode st) = true ->
  scan st (escape_char c)
  = Scanning {| pmode := Normal; alts := alts st; branch := Chr c :: branch st;
                stack := stack st |}.
Proof.
  destruct st as [m a s k]. simpl. intros HR.
  destruct m; try discriminate HR;
    destruct c as [[] [] [] [] [] [] [] []]; reflexivity.
Qed.

Lemma scan_escape m : forall st,
  ready (pmode st) = true ->
  exists m', ready m' = true
    /\ scan st (escape m)
       = Scanning {| pmode := m'; alts := alts st;
                     branch := rev (map Chr m) ++ branch st; stack := stack st |}.
Proof.
  induction m as [|c m IH]; intros st HR.
  - exists (pmode st). split; [exact HR|]. now destruct st.
  - unfold escape. simpl flat_map. rewrite scan_app, scan_escape_char by exact HR.
    destruct (IH {| pmode := Normal; alts := alts st; branch := Chr c :: branch st;
                    stack := stack st |} eq_refl) as (m' & Hm & E).
    exists m'. split; [exact Hm|]. unfold escape in E. rewrite E. simpl.
    now rewrite <- app_assoc.
Qed.

Lemma compile_each_Forall2 args : forall rs,
  compile_each args = Some rs ->
  Forall2 (fun a r => compile (str_of a) = Compiled r) args rs.
Proof.
  induction args as [|a args IH]; intros rs H; simpl in H.
  - inversion H. constructor.
  - destruct (compile (str_of a)) as [r|e] eqn:E; [|discriminate].
    destruct (compile_each args) as [rs'|]; [|discriminate].
    inversion H; subst. constructor; auto.
Qed.

Lemma compile_each_length args rs :
  compile_each args = Some rs -> length rs = length args.
Proof.
  intros H. apply compile_each_Forall2 in H.
  symmetry. eapply Forall2_length; eauto.
Qed.

(** The arguments pasted and joined are read as their items. *)
Lemma scan_arguments args : forall rs st,
  compile_each args = Some rs ->
  ready (pmode st) = true ->
  exists m', ready m' = true
    /\ scan st (join (str "\s*,\s*")
                  (map (fun a => str "(" ++ str_of a ++ str ")") args))
       = Scanning {| pmode := m'; alts := alts st;
                     branch := rev (items rs) ++ branch st; stack := stack st |}.
Proof.
  induction args as [|g args IH]; intros rs st HF HR.
  - inversion HF; subst. exists (pmode st). split; [exact HR|]. now destruct st.
  - simpl in HF.
    destruct (compile (str_of g)) as [r|e] eqn:Hg; [|discriminate].
    destruct (compile_each args) as [rs'|] eqn:HF'; [|discriminate].
    inversion HF; subst rs; clear HF.
    destruct args as [|g2 args].
    + inversion HF'; subst. exists Normal. split; [reflexivity|].
      change (join (str "\s*,\s*")
                (map (fun a => str "(" ++ str_of a ++ str ")") [g]))
        with (str "(" ++ str_of g ++ str ")").
      rewrite (@scan_pasted (str_of g) r st) by assumption. reflexivity.
    + destruct rs' as [|r2 rs'].
      { apply compile_each_length in HF'. discriminate. }
      change (join (str "\s*,\s*")
                (map (fun a => str "(" ++ str_of a ++ str ")")
                   (g :: g2 :: args)))
        with ((str "(" ++ str_of g ++ str ")") ++ str "\s*,\s*"
              ++ join (str "\s*,\s*")
                   (map (fun a => str "(" ++ str_of a ++ str ")")
                      (g2 :: args))).
      rewrite scan_app, (@scan_pasted (str_of g) r st) by assumption.
      rewrite scan_app, scan_separator by reflexivity.
      destruct (IH (r2 :: rs')
                  {| pmode := Quant; alts := alts st;
                     branch := Star ws :: Chr "," :: Star ws :: Group r :: branch st;
                     stack := stack st |} eq_refl eq_refl) as (m' & Hm & E).
      exists m'. split; [exact Hm|]. cbn [pmode alts branch stack] in E |- *.
      rewrite E.
      f_equal. f_equal.
      change (items (r :: r2 :: rs'))
        with ([Group r; Star ws; Chr ","; Star ws] ++ items (r2 :: rs')).
      rewrite rev_app_distr. simpl. now rewrite <- app_assoc.
Qed.

(** The pattern text of an instruction whose arguments compile on their
    own compiles, to the pattern of the engine written as a sequence. *)
Lemma compile_pattern_str m args rs :
  compile_each args = Some rs ->
  compile (pattern_str m args) = Compiled (compiled_pattern m rs).
Proof.
  intros HF. unfold compile, pattern_str, arguments_str.
  change (str "(?:\s*") with (str "(?:" ++ str "\s*").
  rewrite <- !app_assoc.
  rewrite scan_app, scan_open_noncapturing by reflexivity.
  rewrite scan_app, scan_ws_star by reflexivity.
  rewrite scan_app.
  match goal with |- context [scan ?st (escape m)] =>
    destruct (scan_escape m st eq_refl) as (m1 & H1 & ->) end.
  rewrite scan_app, scan_ws_star by exact H1.
  rewrite scan_app, scan_open_noncapturing by reflexivity.
  rewrite scan_app.
  match goal with |- context [scan ?st (join _ _)] =>
    destruct (@scan_arguments args rs st HF eq_refl) as (m2 & H2 & ->) end.
  rewrite scan_app. erewrite scan_close; [|exact H2|reflexivity].
  rewrite scan_app, scan_ws_star by reflexivity.
  erewrite scan_close; [|reflexivity|reflexivity].
  remember (compiled_pattern m rs) as R eqn:ER.
  unfold finish. simpl. f_equal. unfold build, wrap. simpl.
  rewrite app_nil_r, rev_involutive, cat_list_items.
  rewrite rev_app_distr, rev_involutive. simpl.
  rewrite <- !app_assoc. subst R. reflexivity.
Qed.

(** The pattern text and the pattern of the engine match every line
    alike, with the same groups. *)
Lemma fullmatch_pattern_str (W : Type) (i : Instruction W) args line :
  compile_each args = Some (arguments i) ->
  fullmatch_str (pattern_str (mnemonic i) args) line
  = match fullmatch (pattern i) line with
    | Some groups => Matched groups
    | None => Unmatched
    end.
Proof.
  intros H. unfold fullmatch_str. rewrite (@compile_pattern_str (mnemonic i) args (arguments i) H).
  now rewrite fullmatch_compiled_pattern.
Qed.

(** Matches of the pattern text of an instruction. *)

Lemma fullmatch_str_Matched (W : Type) (i : Instruction W) args line caps :
  compile_each args = Some (arguments i) ->
  fullmatch_str (pattern_str (mnemonic i) args) line = Matched caps ->
  fullmatch (pattern i) line = Some caps.
Proof.
  intros HE H. rewrite (@fullmatch_pattern_str W i args line HE) in H.
  destruct (fullmatch (pattern i) line); [now inversion H | discriminate].
Qed.

Lemma ngroups_pattern_str (W : Type) (i : Instruction W) args :
  compile_each args = Some (arguments i) ->
  exists R, compile (pattern_str (mnemonic i) args) = Compiled R
            /\ ngroups R
               = length args + list_sum (map ngroups (arguments i)).
Proof.
  intros HE. exists (compiled_pattern (mnemonic i) (arguments i)).
  split; [now apply compile_pattern_str|].
  rewrite ngroups_compiled_pattern, ngroups_pattern.
  now rewrite (compile_each_length _ HE).
Qed.


(** The first instruction of the table matches, inside a section: its
    formatter is called with the groups of the match. *)
Lemma dispatch_match (W : Type) (i : Instruction W) table n line st gs w :
  fullmatch (pattern i) line = Some gs ->
  sections_started st <> 0 ->
  dispatch (i :: table) n line st w
  = bind (formatter i gs)
      (fun r => ret {| result := result st ++ [r];
                       sections_started := sections_started st;
                       last_section_name := last_section_name st |}) w.
Proof.
  intros HM Hs. simpl. rewrite HM. apply Nat.eqb_neq in Hs. now rewrite Hs.
Qed.


(** A reference to the first group of a grammar.  On its own the grammar
    is a pattern (with a reference, which the fragment leaves out); pasted
    between the parentheses of its argument, the first group is the one
    around the grammar, which is still open: [re] refuses the pattern. *)
Lemma reference_to_open_group :
  compile (str "(a)\1") = NotCompiled Unsupported
  /\ compile (pattern_str (str "mov") [Text (str "(a)\1")])
     = NotCompiled ReError.
Proof. split; vm_compute; reflexivity. Qed.

(** * The claims *)

(** C1 (the code departs from it).  On a boundary line that opens a
    section while one is open, the end formatter is called with the name
    of the NEW section, not of the one being closed: for the four-line
    input [sec1: / nop / sec2: / nop] the engine emits START sec1, NOP,
    END sec2, START sec2, NOP, END sec2, where the specification asks for
    END sec1 in third place. *)
Theorem C1_section_end_gets_new_name :
  emitted Demo.asm (Demo.lines ["sec1:"; "nop"; "sec2:"; "nop"]%string) tt
  = (Return [str "START sec1"; str "NOP"; str "END sec2";
             str "START sec2"; str "NOP"; str "END sec2"], tt).
Proof. vm_compute. reflexivity. Qed.

(** C2 (the code departs from it).  With [binary_output] the call does not
    return bytes: [bytes] is given a string and no encoding, and raises
    [TypeError], here on an input that assembles as text. *)
Theorem C2_binary_output_raises :
  assemble Demo.asm (Demo.lines ["main:"; "nop"]%string) false tt
  = (Return (Str (Demo.lines ["BEGIN"; "START main"; "NOP"; "END main";
                              "FINISH"]%string)), tt)
  /\ assemble Demo.asm (Demo.lines ["main:"; "nop"]%string) true tt
     = (Raise TypeError, tt).
Proof. split; vm_compute; reflexivity. Qed.

(** C3, counterexample.  The line [bla] is not blank and is no label, it
    comes before any section, and it matches no instruction: the error is
    the invalid syntax one, not the out of section one. *)
Lemma C3_counterexample :
  blank (str "bla") = false /\ is_section_boundary (str "bla") = false
  /\ assemble Demo.asm (str "bla") false tt = (Raise (Asm (InvalidSyntax 1)), tt)
  /\ assemble Demo.asm (str "bla") false tt
     <> (Raise (Asm (StatementOutsideSection 1)), tt).
Proof. repeat split; vm_compute; try reflexivity; discriminate. Qed.

(** C3 (as amended).  A line that is not blank and is no bare label, read
    while no section has been opened (all lines before it are blank), makes
    [assemble] fail with the number of that line in the rewritten
    sequence: out of section when some instruction of the table matches
    the line, invalid syntax when none does. *)
Theorem C3_statement_before_any_section (W : Type) (a : Assembler W)
    (t : text) (b : bool) (new_text pre : list text) (line : text)
    (post : list text) (w : W) :
  truthy (strip t) = true ->
  label_pass (splitlines (strip_comments t)) = Return new_text ->
  rewritten new_text = pre ++ line :: post ->
  forallb blank pre = true ->
  blank line = false ->
  is_section_boundary line = false ->
  assemble a t b w
  = (Raise (Asm (if existsb (fun i => accepts i line)
                      (instructions (instruction_set a))
                 then StatementOutsideSection (length pre + 1)
                 else InvalidSyntax (length pre + 1))), w).
Proof.
  intros H1 H2 H3 H4 H5 H6. apply assemble_raise.
  rewrite emitted_unfold with (new_text := new_text) by assumption.
  rewrite H3, main_pass_app, main_pass_blank by exact H4.
  simpl main_pass. rewrite bind_eq.
  unfold main_step. unfold is_section_boundary in H6.
  destruct (fullmatch BARE line); [discriminate|]. rewrite H5.
  rewrite dispatch_outside; reflexivity.
Qed.

Lemma C3_statement_before_any_section_witness :
  assemble Demo.asm (Demo.lines [""; "nop"]%string) false tt
  = (Raise (Asm (StatementOutsideSection 2)), tt).
Proof.
  apply (@C3_statement_before_any_section unit Demo.asm
           (Demo.lines [""; "nop"]%string) false
           [[]; str "nop"] [[]] (str "nop") [] tt); reflexivity.
Defined.

(** C4 (the code departs from it).  An input of comments only opens no
    section, yet the closing emission is not skipped: the end formatter is
    called with the empty name and its text goes into the output. *)
Theorem C4_comment_only_input_closes_a_section :
  emitted Demo.asm (str "; only a comment") tt = (Return [str "END "], tt)
  /\ assemble Demo.asm (str "; only a comment") false tt
     = (Return (Str (Demo.lines ["BEGIN"; "END "; "FINISH"]%string)), tt).
Proof. split; vm_compute; reflexivity. Qed.

(** C5, counterexample.  White space may stand before the identifier and
    between the identifier and the colon: [foo : nop] has a label prefix
    for the first loop and [ foo :] is a section boundary for the second,
    though neither begins with an identifier that a colon follows at
    once. *)
Lemma C5_counterexample :
  is_label_declaration (str "foo : nop") = true
  /\ spec_label_declaration (str "foo : nop") = false
  /\ is_section_boundary (str " foo :") = true
  /\ spec_label_declaration (str " foo :") = false.
Proof. repeat split; vm_compute; reflexivity. Qed.

(** C5 (as amended).  A line is treated as a label declaration whenever it
    is made of optional white space, an identifier (a letter or
    underscore, then letters, digits and underscores), optional white
    space, a colon and any text without line feed, in particular when it
    begins with such an identifier and the colon follows at once; it is a
    section boundary when only white space follows the colon.  Conversely
    a line so treated is made of optional white space, a non-empty run of
    word characters, optional white space, a colon and the rest. *)
Theorem C5_label_declaration_shape :
  (forall w1 id w2 rest,
      forallb isspace w1 = true -> spec_identifier id = true ->
      forallb isspace w2 = true -> forallb isdot rest = true ->
      is_label_declaration (w1 ++ id ++ w2 ++ ":"%char :: rest) = true)
  /\ (forall w1 id w2 w3,
      forallb isspace w1 = true -> spec_identifier id = true ->
      forallb isspace w2 = true -> forallb isspace w3 = true ->
      is_section_boundary (w1 ++ id ++ w2 ++ ":"%char :: w3) = true)
  /\ (forall line,
      spec_label_declaration line = true -> forallb isdot line = true ->
      is_label_declaration line = true)
  /\ (forall line,
      is_label_declaration line = true ->
      exists w1 id w2 rest,
        line = w1 ++ id ++ w2 ++ ":"%char :: rest
        /\ forallb isspace w1 = true
        /\ id <> [] /\ forallb isword id = true
        /\ forallb isspace w2 = true /\ forallb isdot rest = true)
  /\ (forall line,
      is_section_boundary line = true ->
      exists w1 id w2 w3,
        line = w1 ++ id ++ w2 ++ ":"%char :: w3
        /\ forallb isspace w1 = true
        /\ id <> [] /\ forallb isword id = true
        /\ forallb isspace w2 = true /\ forallb isspace w3 = true).
Proof.
  split; [|split; [|split; [|split]]].
  - intros. apply is_label_declaration_lang. now apply lang_LABEL.
  - intros. apply is_section_boundary_lang. now apply lang_BARE.
  - intros line H D. apply spec_label_declaration_shape in H.
    destruct H as (id & rest & -> & H).
    rewrite forallb_app in D. apply andb_true_iff in D. destruct D as [_ D].
    simpl in D. apply is_label_declaration_lang.
    apply (@lang_LABEL [] id [] rest); auto.
  - intros line H. apply is_label_declaration_lang in H.
    now apply lang_LABEL_inv in H.
  - intros line H. apply is_section_boundary_lang in H.
    now apply lang_BARE_inv in H.
Qed.

(** The first character of the identifier: the class [\w] of the pattern
    holds the digits, so a line such as [1:] opens a section. *)
Lemma digit_first_label :
  is_label_declaration (str "1:") = true
  /\ is_section_boundary (str "1:") = true
  /\ emitted Demo.asm (Demo.lines ["1:"; "nop"]%string) tt
     = (Return [str "START 1"; str "NOP"; str "END 1"], tt).
Proof. repeat split; vm_compute; reflexivity. Qed.




(** C7, counterexample.  With an instruction set that does not know [mov]
    both inputs are rejected, but not with the same error: the statement is
    line 2 of one rewritten text and line 3 of the other, and the message
    says so.  With a mnemonic
    that begins with a space the one-line input assembles and the two-line
    input is rejected. *)
Lemma C7_counterexample :
  assemble Demo.nop_only (str "foo: mov a, b") false tt
  = (Raise (Asm (InvalidSyntax 2)), tt)
  /\ assemble Demo.nop_only (Demo.lines ["foo:"; "mov a, b"]%string) false tt
     = (Raise (Asm (InvalidSyntax 3)), tt)
  /\ assemble Demo.spaced (str "foo: mov a, b") false tt
     = (Return (Str (Demo.lines ["START foo"; "MOV"; "END foo"]%string)), tt)
  /\ assemble Demo.spaced (Demo.lines ["foo:"; "mov a, b"]%string) false tt
     = (Raise (Asm (InvalidSyntax 3)), tt)
  /\ message (InvalidSyntax 2) <> message (InvalidSyntax 3).
Proof. repeat split; vm_compute; try reflexivity; discriminate. Qed.

(** C7 (as amended).  For an assembler whose instruction patterns match
    the remainder as it is split off, [ mov a, b] with its leading space,
    exactly as they match [mov a, b], the one-line input [foo: mov a, b]
    and the two-line input give the same result: the same output, or the
    same error, except that a rejection of the statement cites line 2 for
    the one-line input and line 3 for the two-line input. *)
Theorem C7_label_splitting (W : Type) (a : Assembler W) (b : bool) (w : W) :
  (forall i, In i (instructions (instruction_set a)) ->
     fullmatch (pattern i) (str " mov a, b")
     = fullmatch (pattern i) (str "mov a, b")) ->
  same_up_to_line
    (assemble a (str "foo: mov a, b") b w)
    (assemble a (Demo.lines ["foo:"; "mov a, b"]%string) b w).
Proof.
  intros H. unfold same_up_to_line, assemble. rewrite !bind_eq.
  rewrite emitted_unfold with (new_text := [str "foo:"; str " mov a, b"])
    by (vm_compute; reflexivity).
  rewrite emitted_unfold with (new_text := [str "foo:"; []; str "mov a, b"])
    by (vm_compute; reflexivity).
  replace (rewritten [str "foo:"; str " mov a, b"])
    with [str "foo:"; str " mov a, b"] by (vm_compute; reflexivity).
  replace (rewritten [str "foo:"; []; str "mov a, b"])
    with [str "foo:"; []; str "mov a, b"] by (vm_compute; reflexivity).
  cbn [main_pass]. rewrite !bind_eq.
  destruct (main_step (instruction_set a) 0 (str "foo:") initial w)
    as [[st|e] w1] eqn:E0; [|left; reflexivity].
  assert (Hs : sections_started st <> 0).
  { unfold main_step in E0.
    replace (fullmatch BARE (str "foo:")) with (Some [Some (str "foo")]) in E0
      by (vm_compute; reflexivity).
    eapply open_section_started; eauto. }
  rewrite !bind_eq.
  rewrite (@main_step_blank W (instruction_set a) 1 [] st w1) by reflexivity.
  rewrite !bind_eq.
  assert (E1 : main_step (instruction_set a) 1 (str " mov a, b") st w1
               = dispatch (instructions (instruction_set a)) 1 (str " mov a, b") st w1).
  { unfold main_step.
    replace (fullmatch BARE (str " mov a, b")) with (@None captures)
      by (vm_compute; reflexivity).
    replace (blank (str " mov a, b")) with false by (vm_compute; reflexivity).
    reflexivity. }
  assert (E2 : main_step (instruction_set a) 2 (str "mov a, b") st w1
               = dispatch (instructions (instruction_set a)) 2 (str "mov a, b") st w1).
  { unfold main_step.
    replace (fullmatch BARE (str "mov a, b")) with (@None captures)
      by (vm_compute; reflexivity).
    replace (blank (str "mov a, b")) with false by (vm_compute; reflexivity).
    reflexivity. }
  rewrite E1, E2.
  destruct (@dispatch_alike W (instructions (instruction_set a)) 1 2
              (str " mov a, b") (str "mov a, b") st w1 H Hs) as [D|[D1 D2]].
  - rewrite D. left. reflexivity.
  - rewrite D1, D2. right. exists w1. split; reflexivity.
Qed.

Lemma C7_label_splitting_witness :
  same_up_to_line
    (assemble Demo.asm (str "foo: mov a, b") false tt)
    (assemble Demo.asm (Demo.lines ["foo:"; "mov a, b"]%string) false tt).
Proof.
  apply (@C7_label_splitting unit Demo.asm false tt).
  intros i [<-|[<-|[]]]; vm_compute; reflexivity.
Defined.

(** C8.  For an assembler whose formatters are pure, two calls in a row
    with the same text and flag give the same result: the same output,
    character for character, or the same error. *)
Theorem C8_repeated_calls_agree (W : Type) (a : Assembler W) (t : text)
    (b : bool) (w : W) :
  pure_formatters a -> fst (twice a t b w) = snd (twice a t b w).
Proof.
  intros Hp. destruct (pureM_assemble t b Hp) as [o Ho].
  unfold twice. rewrite Ho, Ho. reflexivity.
Qed.

Lemma C8_repeated_calls_agree_witness :
  fst (twice Demo.quiet (Demo.lines ["main:"; "nop"]%string) false 7)
  = snd (twice Demo.quiet (Demo.lines ["main:"; "nop"]%string) false 7).
Proof.
  apply (@C8_repeated_calls_agree nat Demo.quiet
           (Demo.lines ["main:"; "nop"]%string) false 7).
  repeat split.
  - intros n. eexists. intros w. reflexivity.
  - intros n. eexists. intros w. reflexivity.
  - intros i [<-|[]] gs; eexists; intros w; reflexivity.
Defined.

(** The hypothesis is needed: a formatter that counts its calls gives the
    second call another output. *)
Lemma counting_formatter_differs :
  twice Demo.counter (str "a:") false 0
  = (Return (Str (Demo.lines ["0"; "1"]%string)),
     Return (Str (Demo.lines ["2"; "3"]%string))).
Proof. vm_compute. reflexivity. Qed.

(** C9.  An empty prologue or epilogue is dropped like any empty entry:
    the output is the one joined from the other entries, and it begins
    (ends) with a line feed only if one of those entries does. *)
Theorem C9_empty_prologue_epilogue_dropped (W : Type) (a : Assembler W)
    (t : text) (w w' : W) (out : text) :
  assemble a t false w = (Return (Str out), w') ->
  exists res,
    emitted a t w = (Return res, w')
    /\ (start_formatter a = [] ->
        out = join [LF] (filter truthy (res ++ [end_formatter a]))
        /\ (starts_with_LF out = true ->
            exists e, In e (res ++ [end_formatter a])
                      /\ starts_with_LF e = true))
    /\ (end_formatter a = [] ->
        out = join [LF] (filter truthy (start_formatter a :: res))
        /\ (ends_with_LF out = true ->
            exists e, In e (start_formatter a :: res)
                      /\ ends_with_LF e = true)).
Proof.
  unfold assemble. rewrite bind_eq.
  destruct (emitted a t w) as [[res|e] w1]; [|discriminate].
  unfold ret. intros E. inversion E; subst. clear E.
  exists res. split; [reflexivity|]. unfold joined. split; intros H; rewrite H.
  - simpl. split; [reflexivity | apply join_starts].
  - change ([start_formatter a] ++ res ++ [[]])
      with ((start_formatter a :: res) ++ [[]]).
    rewrite filter_truthy_snoc_nil. split; [reflexivity | apply join_ends].
Qed.

Lemma C9_empty_prologue_epilogue_dropped_witness :
  exists res,
    emitted Demo.bare (Demo.lines ["main:"; "nop"]%string) tt = (Return res, tt)
    /\ (start_formatter Demo.bare = [] ->
        Demo.lines ["START main"; "NOP"; "END main"]%string
        = join [LF] (filter truthy (res ++ [end_formatter Demo.bare]))
        /\ (starts_with_LF (Demo.lines ["START main"; "NOP"; "END main"]%string)
            = true ->
            exists e, In e (res ++ [end_formatter Demo.bare])
                      /\ starts_with_LF e = true))
    /\ (end_formatter Demo.bare = [] ->
        Demo.lines ["START main"; "NOP"; "END main"]%string
        = join [LF] (filter truthy (start_formatter Demo.bare :: res))
        /\ (ends_with_LF (Demo.lines ["START main"; "NOP"; "END main"]%string)
            = true ->
            exists e, In e (start_formatter Demo.bare :: res)
                      /\ ends_with_LF e = true)).
Proof.
  apply (@C9_empty_prologue_epilogue_dropped unit Demo.bare
           (Demo.lines ["main:"; "nop"]%string) tt tt).
  vm_compute. reflexivity.
Defined.




(** * Further properties of the pipeline *)

(** ** White space and empty input *)

Lemma lstrip_spaces s : forallb isspace s = true -> lstrip s = [].
Proof.
  induction s as [|c s IH]; simpl; [reflexivity|].
  intros H. apply andb_true_iff in H. destruct H as [Hc Hs].
  rewrite Hc. now apply IH.
Qed.

Lemma strip_spaces s : forallb isspace s = true -> strip s = [].
Proof. intros H. unfold strip, rstrip. now rewrite (lstrip_spaces _ H). Qed.

Lemma strip_nil_iff s : strip s = [] <-> forallb isspace s = true.
Proof. split; [apply strip_nil | apply strip_spaces]. Qed.

Lemma truthy_strip_app s x :
  truthy (strip s) = true -> truthy (strip (s ++ x)) = true.
Proof.
  intros H. destruct (strip (s ++ x)) eqn:E; [|reflexivity].
  apply strip_nil_iff in E. rewrite forallb_app in E.
  apply andb_true_iff in E. destruct E as [E _].
  apply strip_spaces in E. now rewrite E in H.
Qed.

(** A line is blank for the second loop exactly when it is made of white
    space. *)
Lemma blank_iff line : blank line = true <-> forallb isspace line = true.
Proof.
  split; [apply blank_spaces|].
  intros H. unfold blank. rewrite (strip_spaces _ H). simpl. apply orb_true_r.
Qed.

(** X1.  A text made of white space only (the empty text too) is rejected
    with the empty input error before anything else happens: no formatter
    is called, the state of the program is as it was. *)
Theorem X1_white_space_only_is_empty_input (W : Type) (a : Assembler W)
    (t : text) (b : bool) (w : W) :
  forallb isspace t = true ->
  assemble a t b w = (Raise (Asm EmptyInput), w).
Proof.
  intros H. unfold assemble, emitted. rewrite bind_eq.
  now rewrite (strip_spaces _ H).
Qed.

Lemma X1_white_space_only_is_empty_input_witness :
  assemble Demo.quiet (Demo.lines [" "; "  "]%string) true 3
  = (Raise (Asm EmptyInput), 3).
Proof.
  apply (@X1_white_space_only_is_empty_input nat Demo.quiet
           (Demo.lines [" "; "  "]%string) true 3).
  reflexivity.
Defined.

(** ** Comment stripping *)

Lemma strip_comments_from_clean m s :
  forallb notsemicolon (strip_comments_from m s) = true.
Proof.
  revert m. induction s as [|c s IH]; intros m; simpl; [reflexivity|].
  destruct m.
  - destruct (code c =? 10) eqn:E; [|apply IH].
    simpl. rewrite IH. unfold notsemicolon.
    apply Nat.eqb_eq in E. now rewrite E.
  - destruct (code c =? 59) eqn:E; [apply IH|].
    simpl. rewrite IH. unfold notsemicolon. now rewrite E.
Qed.

Lemma strip_comments_clean_id s :
  forallb notsemicolon s = true -> strip_comments s = s.
Proof.
  unfold strip_comments. induction s as [|c s IH]; simpl; [reflexivity|].
  intros H. apply andb_true_iff in H. destruct H as [Hc Hs].
  unfold notsemicolon in Hc. apply negb_true_iff in Hc. rewrite Hc.
  now rewrite IH.
Qed.

(** X2.  Stripping comments leaves no semicolon, so stripping again
    changes nothing: the second loop reads what the first loop read. *)
Theorem X2_strip_comments_idempotent (s : text) :
  forallb notsemicolon (strip_comments s) = true
  /\ strip_comments (strip_comments s) = strip_comments s.
Proof.
  split; [apply strip_comments_from_clean|].
  apply strip_comments_clean_id, strip_comments_from_clean.
Qed.

(** A comment at the end of a text is dropped whole. *)
Lemma strip_comments_from_trailing m t c :
  forallb isdot c = true ->
  strip_comments_from m (t ++ ";"%char :: c) = strip_comments_from m t.
Proof.
  intros Hc.
  assert (Hskip : strip_comments_from true c = []).
  { induction c as [|x c IH]; simpl; [reflexivity|].
    simpl in Hc. apply andb_true_iff in Hc. destruct Hc as [Hx Hc].
    unfold isdot in Hx. apply negb_true_iff in Hx. rewrite Hx. now apply IH. }
  revert m. induction t as [|x t IH]; intros m; simpl.
  - destruct m; exact Hskip.
  - destruct m.
    + destruct (code x =? 10); now rewrite IH.
    + destruct (code x =? 59); now rewrite IH.
Qed.

(** X3.  A comment appended to a text that is not empty does not change
    the result of [assemble]: not the output, not the error, not what the
    formatters did. *)
Theorem X3_trailing_comment_ignored (W : Type) (a : Assembler W) (t c : text)
    (b : bool) (w : W) :
  truthy (strip t) = true -> forallb isdot c = true ->
  assemble a (t ++ ";"%char :: c) b w = assemble a t b w.
Proof.
  intros Ht Hc. unfold assemble, emitted.
  rewrite truthy_strip_app by exact Ht. rewrite Ht.
  unfold strip_comments. now rewrite strip_comments_from_trailing.
Qed.

Lemma X3_trailing_comment_ignored_witness :
  assemble Demo.asm (Demo.lines ["main:"; "nop"]%string
                     ++ ";"%char :: str " the end") false tt
  = assemble Demo.asm (Demo.lines ["main:"; "nop"]%string) false tt.
Proof.
  apply (@X3_trailing_comment_ignored unit Demo.asm
           (Demo.lines ["main:"; "nop"]%string) (str " the end") false tt);
    reflexivity.
Defined.

(** ** Lines *)

(** Induction for functions that may step over two characters. *)
Lemma text_ind2 (P : list ascii -> Prop) :
  P [] ->
  (forall c s, P s -> (forall c2 s2, s = c2 :: s2 -> P s2) -> P (c :: s)) ->
  forall s, P s.
Proof.
  intros H0 HS s.
  assert (G : P s /\ (forall c2 s2, s = c2 :: s2 -> P s2)).
  { induction s as [|c s [IH1 IH2]].
    - split; [exact H0 | discriminate].
    - split; [now apply HS|]. intros c2 s2 E. now inversion E; subst. }
  apply G.
Qed.

(** Every line holds characters of the text only. *)
Lemma splitlines_from_forallb (p : ascii -> bool) s : forall cur,
  forallb p cur = true -> forallb p s = true ->
  Forall (fun l => forallb p l = true) (splitlines_from cur s).
Proof.
  induction s as [|c s IH IH2] using text_ind2; intros cur Hcur Hs; simpl.
  - destruct cur; constructor; [|constructor].
    now rewrite forallb_rev.
  - simpl in Hs. apply andb_true_iff in Hs. destruct Hs as [Hc Hs].
    destruct (islinebreak c).
    + constructor; [now rewrite forallb_rev|].
      destruct (code c =? 13); [|now apply IH].
      destruct s as [|c2 s2]; [now apply IH|].
      destruct (code c2 =? 10); [|now apply IH].
      simpl in Hs. apply andb_true_iff in Hs. destruct Hs as [_ Hs2].
      now apply (IH2 c2 s2 eq_refl).
    + apply IH; [|assumption]. simpl. now rewrite Hc, Hcur.
Qed.

(** No line holds a line boundary. *)
Lemma splitlines_from_notlinebreak s : forall cur,
  forallb notlinebreak cur = true ->
  Forall (fun l => forallb notlinebreak l = true) (splitlines_from cur s).
Proof.
  induction s as [|c s IH IH2] using text_ind2; intros cur Hcur; simpl.
  - destruct cur; constructor; [|constructor].
    now rewrite forallb_rev.
  - destruct (islinebreak c) eqn:E.
    + constructor; [now rewrite forallb_rev|].
      destruct (code c =? 13); [|now apply IH].
      destruct s as [|c2 s2]; [now apply IH|].
      destruct (code c2 =? 10); [|now apply IH].
      now apply (IH2 c2 s2 eq_refl).
    + apply IH. simpl. unfold notlinebreak at 1. now rewrite E, Hcur.
Qed.

Lemma splitlines_from_app x : forall cur s,
  forallb notlinebreak x = true ->
  splitlines_from cur (x ++ s) = splitlines_from (rev x ++ cur) s.
Proof.
  induction x as [|c x IH]; intros cur s H; simpl; [reflexivity|].
  simpl in H. apply andb_true_iff in H. destruct H as [Hc Hx].
  unfold notlinebreak in Hc. apply negb_true_iff in Hc. rewrite Hc.
  rewrite IH by exact Hx. now rewrite <- app_assoc.
Qed.

(** Round trip: lines without line boundaries, joined by line feeds and
    split again, are the same lines, except that one empty line at the end
    is lost. *)
Lemma splitlines_join_chomp (l : list text) :
  Forall (fun x => forallb notlinebreak x = true) l ->
  splitlines (join [LF] l) = chomp l.
Proof.
  intros H.
  unfold splitlines. induction H as [|x l Hx Hl IH]; [reflexivity|].
  destruct l as [|y l].
  - simpl join. rewrite <- (app_nil_r x) at 1.
    rewrite splitlines_from_app by exact Hx. simpl.
    rewrite app_nil_r. destruct x as [|c x]; [reflexivity|].
    destruct (rev (c :: x)) eqn:E.
    + apply (f_equal (@length ascii)) in E. rewrite length_rev in E. discriminate.
    + rewrite <- E. now rewrite rev_involutive.
  - change (join [LF] (x :: y :: l)) with (x ++ [LF] ++ join [LF] (y :: l)).
    rewrite splitlines_from_app by exact Hx.
    change (chomp (x :: y :: l)) with (x :: chomp (y :: l)).
    rewrite <- IH. simpl. now rewrite app_nil_r, rev_involutive.
Qed.

(** ** The label patterns, in terms of plain text functions *)

Lemma drop_while_app p a b :
  forallb p a = true -> drop_while p (a ++ b) = drop_while p b.
Proof.
  induction a as [|c a IH]; simpl; [reflexivity|].
  intros H. apply andb_true_iff in H. destruct H as [Hc Ha].
  rewrite Hc. now apply IH.
Qed.

Lemma take_while_app p a b :
  forallb p a = true -> take_while p (a ++ b) = a ++ take_while p b.
Proof.
  induction a as [|c a IH]; simpl; [reflexivity|].
  intros H. apply andb_true_iff in H. destruct H as [Hc Ha].
  rewrite Hc. now rewrite IH.
Qed.

Lemma isspace_notword c : isspace c = true -> isword c = false.
Proof. by_cases_on c. Qed.

Lemma isspace_notcolon c : isspace c = true -> notcolon c = true.
Proof. by_cases_on c. Qed.

Lemma isword_notcolon c : isword c = true -> notcolon c = true.
Proof. by_cases_on c. Qed.

Lemma forallb_impl (p q : ascii -> bool) s :
  (forall c, p c = true -> q c = true) ->
  forallb p s = true -> forallb q s = true.
Proof.
  intros H. induction s as [|c s IH]; simpl; [reflexivity|].
  intros E. apply andb_true_iff in E. destruct E as [Ec Es].
  now rewrite (H c Ec), IH.
Qed.

Lemma label_shape_after_colon w1 id w2 rest line :
  label_shape w1 id w2 rest line -> after_colon line = rest.
Proof.
  intros (-> & H1 & _ & H2 & H3). unfold after_colon.
  rewrite drop_while_app by (eapply forallb_impl; [apply isspace_notcolon | exact H1]).
  rewrite drop_while_app by (eapply forallb_impl; [apply isword_notcolon | exact H2]).
  rewrite drop_while_app by (eapply forallb_impl; [apply isspace_notcolon | exact H3]).
  reflexivity.
Qed.

Lemma label_shape_name w1 id w2 rest line :
  label_shape w1 id w2 rest line -> label_name line = id.
Proof.
  intros (-> & H1 & Hne & H2 & H3). unfold label_name.
  rewrite drop_while_app by exact H1.
  destruct id as [|c id]; [contradiction|].
  simpl in H2. apply andb_true_iff in H2. destruct H2 as [Hc H2].
  simpl drop_while.
  replace (isspace c) with false.
  2:{ destruct (isspace c) eqn:E; [|reflexivity].
      apply isspace_notword in E. congruence. }
  simpl. rewrite Hc. f_equal.
  rewrite take_while_app by exact H2.
  destruct w2 as [|d w2]; simpl.
  - apply app_nil_r.
  - simpl in H3. apply andb_true_iff in H3. destruct H3 as [Hd _].
    rewrite (isspace_notword _ Hd). apply app_nil_r.
Qed.

Lemma label_shape_upto_colon w1 id w2 rest line :
  label_shape w1 id w2 rest line ->
  upto_colon line = w1 ++ id ++ w2 ++ [":"%char].
Proof.
  intros H. unfold upto_colon. rewrite (label_shape_after_colon H).
  destruct H as (-> & _).
  replace (w1 ++ id ++ w2 ++ ":"%char :: rest)
    with ((w1 ++ id ++ w2 ++ [":"%char]) ++ rest)
    by (now rewrite <- !app_assoc).
  apply firstn_consumed.
Qed.

Lemma run_Chr_inv a i pre s rest c c' :
  run (Chr a) i pre s rest c c' -> s = [a] /\ c' = c.
Proof. intros H. inversion H; subst. auto. Qed.

(** The groups of a match of the label prefix: the name, and what follows
    the first colon. *)
Lemma fullmatch_LABEL_shape line gs :
  fullmatch LABEL line = Some gs ->
  exists w1 id w2 rest,
    label_shape w1 id w2 rest line /\ forallb isdot rest = true
    /\ gs = [Some id; Some rest].
Proof.
  intros H. apply fullmatch_run in H. unfold LABEL in H.
  apply run_Cat_inv in H. destruct H as (w1 & t1 & c1 & -> & H1 & H).
  apply run_Cat_inv in H. destruct H as (id & t2 & c2 & -> & H2 & H).
  apply run_Cat_inv in H. destruct H as (w2 & t3 & c3 & -> & H3 & H).
  apply run_Cat_inv in H. destruct H as (k & rest & c4 & -> & H4 & H5).
  pose proof (run_lang H1) as L1. apply lang_Star_Cls_inv in L1.
  pose proof (run_lang H3) as L3. apply lang_Star_Cls_inv in L3.
  apply run_groupfree in H1; [|reflexivity]. subst c1.
  apply run_groupfree in H3; [|reflexivity]. subst c3.
  apply run_Chr_inv in H4. destruct H4 as [-> ->].
  apply run_Group_inv in H2. destruct H2 as (d2 & H2 & ->).
  pose proof (run_lang H2) as L2. apply lang_IDENT_inv in L2.
  apply run_groupfree in H2; [|reflexivity]. subst d2.
  apply run_Group_inv in H5. destruct H5 as (d5 & H5 & ->).
  pose proof (run_lang H5) as L5. apply lang_Star_Cls_inv in L5.
  apply run_groupfree in H5; [|reflexivity]. subst d5.
  exists w1, id, w2, rest. destruct L2 as [Hne Hid].
  repeat split; auto.
Qed.

Lemma fullmatch_BARE_shape line gs :
  fullmatch BARE line = Some gs ->
  exists w1 id w2 w3,
    label_shape w1 id w2 w3 line /\ forallb isspace w3 = true
    /\ gs = [Some id].
Proof.
  intros H. apply fullmatch_run in H. unfold BARE in H.
  apply run_Cat_inv in H. destruct H as (w1 & t1 & c1 & -> & H1 & H).
  apply run_Cat_inv in H. destruct H as (id & t2 & c2 & -> & H2 & H).
  apply run_Cat_inv in H. destruct H as (w2 & t3 & c3 & -> & H3 & H).
  apply run_Cat_inv in H. destruct H as (k & w3 & c4 & -> & H4 & H5).
  pose proof (run_lang H1) as L1. apply lang_Star_Cls_inv in L1.
  pose proof (run_lang H3) as L3. apply lang_Star_Cls_inv in L3.
  pose proof (run_lang H5) as L5. apply lang_Star_Cls_inv in L5.
  apply run_groupfree in H1; [|reflexivity]. subst c1.
  apply run_groupfree in H3; [|reflexivity]. subst c3.
  apply run_groupfree in H5; [|reflexivity]. subst c4.
  apply run_Chr_inv in H4. destruct H4 as [-> E4].
  apply run_Group_inv in H2. destruct H2 as (d2 & H2 & ->).
  pose proof (run_lang H2) as L2. apply lang_IDENT_inv in L2.
  apply run_groupfree in H2; [|reflexivity]. subst d2.
  exists w1, id, w2, w3. destruct L2 as [Hne Hid].
  repeat split; auto.
Qed.

(** A shape with any non-empty run of word characters is matched. *)
Lemma lang_IDENT_word id pre rest :
  id <> [] -> forallb isword id = true -> lang IDENT pre id rest.
Proof.
  destruct id as [|c r]; [contradiction|]. intros _ H. simpl in H.
  apply andb_true_iff in H. destruct H as [Hc Hr].
  change (c :: r) with ([c] ++ r). unfold IDENT. constructor.
  - apply lang_AltR. now constructor.
  - apply lang_Star_chars. intros d Hd pre' rest'.
    apply lang_AltR, lang_AltL. constructor.
    rewrite forallb_forall in Hr. now apply Hr.
Qed.

Lemma label_shape_boundary w1 id w2 w3 line :
  label_shape w1 id w2 w3 line -> forallb isspace w3 = true ->
  is_section_boundary line = true.
Proof.
  intros (-> & H1 & Hne & H2 & H3) H4.
  apply is_section_boundary_lang. unfold BARE.
  constructor; [now apply lang_Star_Cls|].
  constructor; [now apply lang_Group, lang_IDENT_word|].
  constructor; [now apply lang_Star_Cls|].
  change (":"%char :: w3) with ([":"%char] ++ w3).
  constructor; [constructor|]. now apply lang_Star_Cls.
Qed.

(** The two ways the first loop returns from a line. *)
Lemma split_label_return line ls :
  split_label line = Return ls ->
  (is_label_declaration line = false /\ ls = [line])
  \/ exists w1 id w2 rest,
       label_shape w1 id w2 rest line
       /\ ls = [w1 ++ id ++ w2 ++ [":"%char]; rest]
       /\ is_label_declaration rest = false.
Proof.
  unfold split_label, is_label_declaration.
  destruct (fullmatch LABEL line) as [gs|] eqn:E.
  - destruct (@fullmatch_LABEL_shape line gs E) as (w1 & id & w2 & rest & HS & _ & ->).
    cbn [group nth].
    destruct (fullmatch LABEL rest) eqn:E2; [discriminate|].
    intros H. inversion H; subst ls; clear H.
    right. exists w1, id, w2, rest. split; [exact HS|].
    split; [|now rewrite E2].
    f_equal. rewrite <- (label_shape_upto_colon HS). unfold upto_colon.
    now rewrite (label_shape_after_colon HS).
  - intros H. inversion H. now left.
Qed.

(** The one way it raises. *)
Lemma split_label_raise line e :
  split_label line = Raise e <->
  e = Asm MultipleLabelsOneLine
  /\ is_label_declaration line = true
  /\ is_label_declaration (after_colon line) = true.
Proof.
  unfold split_label, is_label_declaration.
  destruct (fullmatch LABEL line) as [gs|] eqn:E.
  - destruct (@fullmatch_LABEL_shape line gs E) as (w1 & id & w2 & rest & HS & _ & ->).
    cbn [group nth]. rewrite (label_shape_after_colon HS).
    destruct (fullmatch LABEL rest) eqn:E2; split.
    + intros H. inversion H. auto.
    + intros (-> & _). reflexivity.
    + discriminate.
    + intros (_ & _ & H). discriminate.
  - split; [discriminate | intros (_ & H & _); discriminate].
Qed.

(** X4.  The first loop cuts a line with a label prefix right after its
    first colon: the pieces are the line up to that colon and what follows
    it, and a remainder with a label prefix of its own is the error. *)
Theorem X4_split_label_after_first_colon (line : text) :
  split_label line
  = if is_label_declaration line
    then if is_label_declaration (after_colon line)
         then Raise (Asm MultipleLabelsOneLine)
         else Return [upto_colon line; after_colon line]
    else Return [line].
Proof.
  unfold split_label, is_label_declaration.
  destruct (fullmatch LABEL line) as [gs|] eqn:E; [|reflexivity].
  destruct (@fullmatch_LABEL_shape line gs E) as (w1 & id & w2 & rest & HS & _ & ->).
  unfold upto_colon. rewrite (label_shape_after_colon HS). cbn [group nth].
  destruct (fullmatch LABEL rest); reflexivity.
Qed.

(** X5.  What the first loop makes of a line keeps the text of the line:
    the pieces put together are the line.  When it cuts, the first piece
    is a section boundary for the second loop, with the name of the
    label, and the second piece has no label prefix. *)
Theorem X5_split_label_pieces (line : text) (ls : list text) :
  split_label line = Return ls ->
  concat ls = line
  /\ (ls = [line]
      \/ exists l1 l2,
           ls = [l1; l2]
           /\ is_section_boundary l1 = true
           /\ label_name l1 = label_name line
           /\ is_label_declaration l2 = false).
Proof.
  intros H. apply split_label_return in H.
  destruct H as [[_ ->]|(w1 & id & w2 & rest & HS & -> & HR)].
  - split; [simpl; apply app_nil_r | now left].
  - split.
    + destruct HS as (-> & _). simpl. rewrite app_nil_r.
      now rewrite <- !app_assoc.
    + right. exists (w1 ++ id ++ w2 ++ [":"%char]), rest.
      assert (HS' : label_shape w1 id w2 [] (w1 ++ id ++ w2 ++ [":"%char])).
      { destruct HS as (_ & H1 & H2 & H3 & H4). repeat split; auto. }
      repeat split.
      * now apply (label_shape_boundary HS').
      * now rewrite (label_shape_name HS'), (label_shape_name HS).
      * exact HR.
Qed.

Lemma X5_split_label_pieces_witness :
  concat [str "foo:"; str " mov a, b"] = str "foo: mov a, b"
  /\ ([str "foo:"; str " mov a, b"] = [str "foo: mov a, b"]
      \/ exists l1 l2,
           [str "foo:"; str " mov a, b"] = [l1; l2]
           /\ is_section_boundary l1 = true
           /\ label_name l1 = label_name (str "foo: mov a, b")
           /\ is_label_declaration l2 = false).
Proof.
  apply (@X5_split_label_pieces (str "foo: mov a, b")
           [str "foo:"; str " mov a, b"]).
  vm_compute. reflexivity.
Defined.

(** ** The first loop as a whole *)

(** X6.  The first loop raises one error only, the one for several labels
    on a line, and raises it exactly when some line has a label prefix
    whose remainder has a label prefix again. *)
Theorem X6_label_pass_raises (lines : list text) (e : exn) :
  label_pass lines = Raise e <->
  e = Asm MultipleLabelsOneLine /\ Exists double_label lines.
Proof.
  revert e. induction lines as [|line lines IH]; intros e; simpl.
  - split; [discriminate | intros [_ H]; inversion H].
  - destruct (split_label line) as [ls|e'] eqn:E.
    + assert (N : ~ double_label line).
      { intros [D1 D2].
        assert (R : split_label line = Raise (Asm MultipleLabelsOneLine))
          by (apply split_label_raise; auto).
        congruence. }
      destruct (label_pass lines) as [ls'|e''].
      * split; [discriminate|]. intros [-> H].
        inversion H; subst; [contradiction|].
        assert (R : Return ls' = Raise (Asm MultipleLabelsOneLine))
          by (apply IH; auto).
        discriminate.
      * destruct (proj1 (IH e'') eq_refl) as [-> HE]. split.
        -- intros H. inversion H; subst. split; [reflexivity|].
           now apply Exists_cons_tl.
        -- intros [-> _]. reflexivity.
    + apply split_label_raise in E. destruct E as (-> & D).
      split.
      * intros H. inversion H; subst. split; [reflexivity|].
        now apply Exists_cons_hd.
      * intros [-> _]. reflexivity.
Qed.

(** X7.  A text with several labels on one line is rejected as such,
    whatever else it holds and whatever the instruction set, and no
    formatter has been called. *)
Theorem X7_double_label_rejected (W : Type) (a : Assembler W) (t : text)
    (b : bool) (w : W) (line : text) :
  truthy (strip t) = true ->
  In line (splitlines (strip_comments t)) ->
  is_label_declaration line = true ->
  is_label_declaration (after_colon line) = true ->
  assemble a t b w = (Raise (Asm MultipleLabelsOneLine), w).
Proof.
  intros Ht Hin H1 H2. apply assemble_raise.
  unfold emitted. rewrite Ht. cbn [negb]. rewrite bind_eq. unfold lift.
  assert (R : label_pass (splitlines (strip_comments t))
              = Raise (Asm MultipleLabelsOneLine)).
  { clear Ht. induction (splitlines (strip_comments t)) as [|l ls IH];
      [contradiction|].
    simpl. destruct Hin as [->|Hin].
    - assert (E : split_label line = Raise (Asm MultipleLabelsOneLine)).
      { apply split_label_raise. auto. }
      now rewrite E.
    - destruct (split_label l) as [x|e] eqn:E.
      + now rewrite (IH Hin).
      + apply split_label_raise in E. now destruct E as (-> & _). }
  now rewrite R.
Qed.

Lemma X7_double_label_rejected_witness :
  assemble Demo.asm (Demo.lines ["main:"; "a: b: nop"]%string) false tt
  = (Raise (Asm MultipleLabelsOneLine), tt).
Proof.
  apply (@X7_double_label_rejected unit Demo.asm
           (Demo.lines ["main:"; "a: b: nop"]%string) false tt (str "a: b: nop"));
    try reflexivity.
  vm_compute. right. left. reflexivity.
Defined.

(** ** From the first loop to the second *)

Lemma Forall_forallb_concat (p : ascii -> bool) (ls : list text) :
  forallb p (concat ls) = true -> Forall (fun l => forallb p l = true) ls.
Proof.
  induction ls as [|l ls IH]; simpl; intros H; constructor.
  - rewrite forallb_app in H. now apply andb_true_iff in H.
  - apply IH. rewrite forallb_app in H. now apply andb_true_iff in H.
Qed.

Lemma split_label_concat line ls :
  split_label line = Return ls -> concat ls = line.
Proof.
  intros H. apply split_label_return in H.
  destruct H as [[_ ->]|(w1 & id & w2 & rest & (-> & _) & -> & _)]; simpl.
  - apply app_nil_r.
  - rewrite app_nil_r. now rewrite <- !app_assoc.
Qed.

Lemma label_pass_forallb (p : ascii -> bool) lines : forall new_text,
  label_pass lines = Return new_text ->
  Forall (fun l => forallb p l = true) lines ->
  Forall (fun l => forallb p l = true) new_text.
Proof.
  induction lines as [|line lines IH]; simpl; intros new_text H F.
  - inversion H. constructor.
  - destruct (split_label line) as [ls|] eqn:E; [|discriminate].
    destruct (label_pass lines) as [ls'|]; [|discriminate].
    inversion H; subst. inversion F; subst.
    apply Forall_app. split; [|now apply IH].
    apply Forall_forallb_concat. apply split_label_concat in E. now rewrite E.
Qed.

Lemma join_forallb (p : ascii -> bool) sep l :
  forallb p sep = true -> Forall (fun x => forallb p x = true) l ->
  forallb p (join sep l) = true.
Proof.
  intros Hs H. induction H as [|x l Hx Hl IH]; [reflexivity|].
  destruct l as [|y l]; [exact Hx|].
  change (join sep (x :: y :: l)) with (x ++ sep ++ join sep (y :: l)).
  now rewrite !forallb_app, Hx, Hs, IH.
Qed.

(** X8.  The second loop reads the very lines that the first loop wrote:
    joining them, stripping comments again and splitting again gives them
    back, except that one empty line at the end is lost.  So the line
    numbers of the errors count the lines of [new_text]. *)
Theorem X8_second_loop_reads_new_text (t : text) (new_text : list text) :
  label_pass (splitlines (strip_comments t)) = Return new_text ->
  rewritten new_text = chomp new_text.
Proof.
  intros H. unfold rewritten.
  assert (F1 : Forall (fun l => forallb notsemicolon l = true) new_text).
  { eapply label_pass_forallb; [exact H|].
    apply splitlines_from_forallb; [reflexivity|].
    apply strip_comments_from_clean. }
  assert (F2 : Forall (fun l => forallb notlinebreak l = true) new_text).
  { eapply label_pass_forallb; [exact H|].
    now apply splitlines_from_notlinebreak. }
  rewrite strip_comments_clean_id by (now apply join_forallb).
  now apply splitlines_join_chomp.
Qed.

Lemma X8_second_loop_reads_new_text_witness :
  rewritten [str "foo:"; str " mov a, b "; str "bar:"; []]
  = chomp [str "foo:"; str " mov a, b "; str "bar:"; []].
Proof.
  apply (@X8_second_loop_reads_new_text
           (Demo.lines ["foo: mov a, b ; move"; "bar:"]%string)).
  vm_compute. reflexivity.
Defined.

(** X9.  On a section boundary the formatters receive the name alone:
    the run of word characters of the line, without the white space around
    it and without the colon. *)
Theorem X9_section_name (W : Type) (iset : InstructionSet W) (n : nat)
    (line : text) (st : state) (w : W) :
  is_section_boundary line = true ->
  main_step iset n line st w = open_section iset (Some (label_name line)) st w.
Proof.
  unfold is_section_boundary, main_step.
  destruct (fullmatch BARE line) as [gs|] eqn:E; [|discriminate].
  intros _.
  destruct (@fullmatch_BARE_shape line gs E) as (w1 & id & w2 & w3 & HS & _ & ->).
  cbn [group nth]. now rewrite (label_shape_name HS).
Qed.

Lemma X9_section_name_witness :
  main_step Demo.iset 4 (str "  loop :  ") (initial) tt
  = open_section Demo.iset (Some (label_name (str "  loop :  "))) (initial) tt.
Proof.
  apply (@X9_section_name unit Demo.iset 4 (str "  loop :  ") initial tt).
  reflexivity.
Defined.

(** ** The instruction table *)

Section Table.

Variable W : Type.
Implicit Types (a : Assembler W) (iset : InstructionSet W) (w : W).

Lemma dispatch_skip (pre table : list (Instruction W)) n line st w :
  forallb (fun j => negb (accepts j line)) pre = true ->
  dispatch (pre ++ table) n line st w = dispatch table n line st w.
Proof.
  induction pre as [|j pre IH]; simpl; [reflexivity|].
  intros H. apply andb_true_iff in H. destruct H as [Hj Hpre].
  unfold accepts in Hj. destruct (fullmatch (pattern j) line); [discriminate|].
  now apply IH.
Qed.

Lemma dispatch_success_any_number (table : list (Instruction W)) n m line st w st' w' :
  dispatch table n line st w = (Return st', w') ->
  dispatch table m line st w = (Return st', w').
Proof.
  induction table as [|i table IH]; simpl; [discriminate|].
  destruct (fullmatch (pattern i) line); [|exact IH].
  destruct (sections_started st =? 0); [discriminate | auto].
Qed.

Lemma main_step_success_any_number iset n m line st w st' w' :
  main_step iset n line st w = (Return st', w') ->
  main_step iset m line st w = (Return st', w').
Proof.
  unfold main_step. destruct (fullmatch BARE line); [auto|].
  destruct (blank line); [auto|]. apply dispatch_success_any_number.
Qed.

Lemma main_pass_success_any_number iset lines : forall n m st w st' w',
  main_pass iset lines n st w = (Return st', w') ->
  main_pass iset lines m st w = (Return st', w').
Proof.
  induction lines as [|l lines IH]; intros n m st w st' w'; simpl; [auto|].
  rewrite !bind_eq.
  destruct (main_step iset n l st w) as [[st1|e] w1] eqn:E; [|discriminate].
  rewrite (main_step_success_any_number _ _ m _ _ _ E). apply IH.
Qed.

End Table.

(** X10.  The first instruction of the table whose pattern matches the
    line decides: the ones before it that do not match are passed over,
    the ones after it are not tried, and its formatter is called with the
    groups of its own match. *)
Theorem X10_first_match_wins (W : Type) (pre : list (Instruction W))
    (i : Instruction W) (post : list (Instruction W)) (n : nat) (line : text)
    (st : state) (gs : captures) (w : W) :
  forallb (fun j => negb (accepts j line)) pre = true ->
  fullmatch (pattern i) line = Some gs ->
  sections_started st <> 0 ->
  dispatch (pre ++ i :: post) n line st w
  = bind (formatter i gs)
      (fun r => ret {| result := result st ++ [r];
                       sections_started := sections_started st;
                       last_section_name := last_section_name st |}) w.
Proof.
  intros Hpre Hi Hs. rewrite dispatch_skip by exact Hpre.
  simpl. rewrite Hi. apply Nat.eqb_neq in Hs. now rewrite Hs.
Qed.

Lemma X10_first_match_wins_witness :
  dispatch ([Demo.nop] ++ Demo.mov1 :: [Demo.movb]) 0 (str "mov x")
    {| result := []; sections_started := 1; last_section_name := Some (str "s") |} tt
  = bind (formatter Demo.mov1 [Some (str "x")])
      (fun r => ret {| result := [] ++ [r];
                       sections_started := 1;
                       last_section_name := Some (str "s") |}) tt.
Proof.
  apply (@X10_first_match_wins unit [Demo.nop] Demo.mov1 [Demo.movb] 0
           (str "mov x")
           {| result := []; sections_started := 1;
              last_section_name := Some (str "s") |}
           [Some (str "x")] tt).
  - reflexivity.
  - vm_compute. reflexivity.
  - simpl. discriminate.
Defined.

(** X11.  A line that is not blank, is no section boundary and matches no
    instruction of the table stops the second loop with the invalid syntax
    error and the number of that line, whether a section is open or not;
    what the formatters did for the lines before it stays done. *)
Theorem X11_invalid_syntax (W : Type) (iset : InstructionSet W)
    (pre : list text) (line : text) (post : list text) (n : nat)
    (st st' : state) (w w' : W) :
  main_pass iset pre n st w = (Return st', w') ->
  blank line = false ->
  is_section_boundary line = false ->
  forallb (fun j => negb (accepts j line)) (instructions iset) = true ->
  main_pass iset (pre ++ line :: post) n st w
  = (Raise (Asm (InvalidSyntax (n + length pre + 1))), w').
Proof.
  intros Hpre Hb Hs Hn. rewrite main_pass_app, Hpre. simpl. rewrite bind_eq.
  unfold main_step. unfold is_section_boundary in Hs.
  destruct (fullmatch BARE line); [discriminate|]. rewrite Hb.
  rewrite <- (app_nil_r (instructions iset)).
  rewrite dispatch_skip by exact Hn. reflexivity.
Qed.

Lemma X11_invalid_syntax_witness :
  main_pass Demo.iset ([str "main:"; str "nop"] ++ str "halt" :: [str "nop"])
    0 initial tt
  = (Raise (Asm (InvalidSyntax (0 + length [str "main:"; str "nop"] + 1))), tt).
Proof.
  apply (@X11_invalid_syntax unit Demo.iset [str "main:"; str "nop"]
           (str "halt") [str "nop"] 0 initial
           {| result := [str "START main"; str "NOP"]; sections_started := 1;
              last_section_name := Some (str "main") |} tt tt);
    vm_compute; reflexivity.
Defined.

(** X12.  Line numbers only show in errors, and blank lines only move
    line numbers: a run of the second loop that succeeds gives the same
    result from any first line number and with blank lines put in
    anywhere. *)
Theorem X12_blank_lines_change_nothing (W : Type) (iset : InstructionSet W)
    (l1 bl l2 : list text) (n m : nat) (st st' : state) (w w' : W) :
  forallb blank bl = true ->
  main_pass iset (l1 ++ l2) n st w = (Return st', w') ->
  main_pass iset (l1 ++ bl ++ l2) m st w = (Return st', w').
Proof.
  intros Hb H. rewrite main_pass_app in H. rewrite main_pass_app.
  destruct (main_pass iset l1 n st w) as [[st1|e] w1] eqn:E; [|discriminate].
  rewrite (main_pass_success_any_number _ _ _ m _ _ E).
  rewrite main_pass_app. rewrite main_pass_blank by exact Hb.
  eapply main_pass_success_any_number. exact H.
Qed.

Lemma X12_blank_lines_change_nothing_witness :
  main_pass Demo.iset ([str "main:"] ++ [[]; str "  "] ++ [str "nop"]) 7 initial tt
  = (Return {| result := [str "START main"; str "NOP"]; sections_started := 1;
               last_section_name := Some (str "main") |}, tt).
Proof.
  apply (@X12_blank_lines_change_nothing unit Demo.iset [str "main:"]
           [[]; str "  "] [str "nop"] 0 7 initial
           {| result := [str "START main"; str "NOP"]; sections_started := 1;
              last_section_name := Some (str "main") |} tt tt);
    vm_compute; reflexivity.
Defined.

(** ** What the second loop keeps *)

Lemma open_section_keeps (W : Type) (iset : InstructionSet W) name st w st' w' :
  open_section iset name st w = (Return st', w') ->
  sections_started st' = S (sections_started st)
  /\ last_section_name st' = name
  /\ exists added, result st' = result st ++ added.
Proof.
  unfold open_section, bind, ret.
  destruct (negb (sections_started st =? 0)).
  - destruct (section_end_formatter iset name w) as [[e|e] w1]; [|discriminate].
    destruct (section_start_formatter iset name w1) as [[s|e'] w2]; [|discriminate].
    intros E. inversion E. simpl. repeat split.
    exists [e; s]. now rewrite <- app_assoc.
  - destruct (section_start_formatter iset name w) as [[s|e'] w2]; [|discriminate].
    intros E. inversion E. simpl. repeat split. now exists [s].
Qed.

Lemma dispatch_keeps (W : Type) (table : list (Instruction W)) n line st w st' w' :
  dispatch table n line st w = (Return st', w') ->
  sections_started st' = sections_started st
  /\ last_section_name st' = last_section_name st
  /\ exists added, result st' = result st ++ added.
Proof.
  induction table as [|i table IH]; simpl; [discriminate|].
  destruct (fullmatch (pattern i) line); [|exact IH].
  destruct (sections_started st =? 0); [discriminate|].
  unfold bind, ret, format. destruct (formatter i c w) as [[r|e] w1]; [|discriminate].
  intros E. inversion E. simpl. repeat split. now exists [r].
Qed.

(** X13.  When the second loop succeeds, the counter has grown by the
    number of section boundaries among the lines, the recorded name is the
    name on the last of them (or the one before the loop when there is
    none), and the entries emitted before are still there, in front. *)
Theorem X13_second_loop_keeps (W : Type) (iset : InstructionSet W)
    (lines : list text) (n : nat) (st st' : state) (w w' : W) :
  main_pass iset lines n st w = (Return st', w') ->
  sections_started st'
  = sections_started st + length (filter is_section_boundary lines)
  /\ last_section_name st' = last_name lines (last_section_name st)
  /\ exists added, result st' = result st ++ added.
Proof.
  revert n st w. induction lines as [|l lines IH]; intros n st w; simpl.
  - unfold ret. intros E. inversion E; subst. repeat split; [lia|].
    exists []. now rewrite app_nil_r.
  - rewrite bind_eq.
    destruct (main_step iset n l st w) as [[st1|e] w1] eqn:E; [|discriminate].
    intros H. apply IH in H. destruct H as (H1 & H2 & added & H3).
    unfold last_name in *. simpl fold_left.
    unfold main_step in E. cbn [filter].
    destruct (fullmatch BARE l) as [gs|] eqn:B.
    + assert (B' : is_section_boundary l = true)
        by (unfold is_section_boundary; now rewrite B).
      rewrite B'.
      destruct (@fullmatch_BARE_shape l gs B) as (s1 & id & s2 & s3 & HS & _ & ->).
      cbn [group nth] in E. apply open_section_keeps in E.
      destruct E as (E1 & E2 & added1 & E3).
      rewrite (label_shape_name HS).
      rewrite E1 in H1. rewrite E2 in H2. rewrite E3 in H3.
      repeat split; [rewrite H1; cbn [length]; lia | exact H2 |].
      exists (added1 ++ added). now rewrite app_assoc.
    + assert (B' : is_section_boundary l = false)
        by (unfold is_section_boundary; now rewrite B).
      rewrite B'.
      assert (K : sections_started st1 = sections_started st
                  /\ last_section_name st1 = last_section_name st
                  /\ exists added1, result st1 = result st ++ added1).
      { destruct (blank l).
        - unfold ret in E. inversion E; subst. repeat split.
          exists []. now rewrite app_nil_r.
        - now apply dispatch_keeps in E. }
      destruct K as (E1 & E2 & added1 & E3).
      rewrite E1 in H1. rewrite E2 in H2. rewrite E3 in H3.
      repeat split; [exact H1 | exact H2 |].
      exists (added1 ++ added). now rewrite app_assoc.
Qed.

Lemma X13_second_loop_keeps_witness :
  sections_started
    {| result := [str "START a"; str "NOP"; str "END b"; str "START b"];
       sections_started := 2; last_section_name := Some (str "b") |}
  = sections_started initial
    + length (filter is_section_boundary [str "a:"; str "nop"; str " b :"])
  /\ last_section_name
       {| result := [str "START a"; str "NOP"; str "END b"; str "START b"];
          sections_started := 2; last_section_name := Some (str "b") |}
     = last_name [str "a:"; str "nop"; str " b :"] (last_section_name initial)
  /\ exists added,
       result
         {| result := [str "START a"; str "NOP"; str "END b"; str "START b"];
            sections_started := 2; last_section_name := Some (str "b") |}
       = result initial ++ added.
Proof.
  apply (@X13_second_loop_keeps unit Demo.iset
           [str "a:"; str "nop"; str " b :"] 0 initial
           {| result := [str "START a"; str "NOP"; str "END b"; str "START b"];
              sections_started := 2; last_section_name := Some (str "b") |}
           tt tt).
  vm_compute. reflexivity.
Defined.

(** ** The pattern of an instruction *)

Lemma lang_Lit_inv m : forall pre s rest, lang (Lit m) pre s rest -> s = m.
Proof.
  induction m as [|c m IH]; intros pre s rest H; simpl in H.
  - now inversion H.
  - apply lang_Cat_inv in H. destruct H as (s1 & s2 & -> & H1 & H2).
    apply lang_Chr_inv in H1. subst. simpl. f_equal. eapply IH; eauto.
Qed.

Lemma lookfree_matches g pre t rest :
  lookfree g = true -> lang g pre t rest -> matches g t.
Proof.
  intros HL H. apply matches_lang. now apply lang_lookfree with (pre := pre) (rest := rest).
Qed.

Lemma lang_arguments_text args : forallb lookfree args = true ->
  forall pre body rest,
    lang (arguments_regex args) pre body rest -> args_text args body.
Proof.
  induction args as [|g args IH]; intros HL pre body rest H.
  - inversion H; subst. constructor.
  - simpl in HL. apply andb_true_iff in HL. destruct HL as [Hg Ha].
    destruct args as [|g2 args].
    + simpl in H. apply lang_Group_inv in H. constructor.
      eapply lookfree_matches; eauto.
    + change (arguments_regex (g :: g2 :: args))
        with (Cat (Group g) (Cat (Star ws) (Cat (Chr ",")
                (Cat (Star ws) (arguments_regex (g2 :: args)))))) in H.
      apply lang_Cat_inv in H. destruct H as (t & r1 & -> & H1 & H).
      apply lang_Cat_inv in H. destruct H as (s1 & r2 & -> & H2 & H).
      apply lang_Cat_inv in H. destruct H as (k & r3 & -> & H3 & H).
      apply lang_Cat_inv in H. destruct H as (s2 & b & -> & H4 & H5).
      apply lang_Group_inv in H1. apply lang_Star_Cls_inv in H2.
      apply lang_Chr_inv in H3. subst k. apply lang_Star_Cls_inv in H4.
      apply IH in H5; [|exact Ha].
      change ([","%char] ++ s2 ++ b) with (","%char :: s2 ++ b).
      apply (@args_more g t s1 s2 (g2 :: args) b);
        [eapply lookfree_matches; eauto | exact H2 | exact H4 | discriminate | exact H5].
Qed.

Lemma args_text_lang args body :
  args_text args body -> forallb lookfree args = true ->
  forall pre rest, lang (arguments_regex args) pre body rest.
Proof.
  induction 1 as [|g t Hm|g t s1 s2 gs body Hm Hs1 Hs2 Hne Ha IH];
    intros HL pre rest.
  - constructor.
  - simpl in HL. apply andb_true_iff in HL. destruct HL as [Hg _].
    simpl. constructor. apply matches_lang in Hm.
    now apply lang_lookfree with (pre := []) (rest := []).
  - simpl in HL. apply andb_true_iff in HL. destruct HL as [Hg Hgs].
    destruct gs as [|g2 gs]; [contradiction|].
    change (arguments_regex (g :: g2 :: gs))
      with (Cat (Group g) (Cat (Star ws) (Cat (Chr ",")
              (Cat (Star ws) (arguments_regex (g2 :: gs)))))).
    constructor.
    + constructor. apply matches_lang in Hm.
      now apply lang_lookfree with (pre := []) (rest := []).
    + constructor; [now apply lang_Star_Cls|].
      change (","%char :: s2 ++ body) with ([","%char] ++ s2 ++ body).
      constructor; [constructor|].
      constructor; [now apply lang_Star_Cls|]. now apply IH.
Qed.

(** The lines that the pattern of the engine matches. *)
Lemma accepts_shape (W : Type) (i : Instruction W) (line : text) :
  forallb lookfree (arguments i) = true ->
  accepts i line = true <->
  exists w1 w2 body w3,
    line = w1 ++ mnemonic i ++ w2 ++ body ++ w3
    /\ forallb isspace w1 = true /\ forallb isspace w2 = true
    /\ forallb isspace w3 = true
    /\ args_text (arguments i) body.
Proof.
  intros HL. unfold accepts. split.
  - destruct (fullmatch (pattern i) line) as [gs|] eqn:E; [|discriminate].
    intros _. apply fullmatch_lang in E. unfold pattern in E.
    apply lang_Cat_inv in E. destruct E as (w1 & r1 & -> & H1 & H).
    apply lang_Cat_inv in H. destruct H as (m & r2 & -> & H2 & H).
    apply lang_Cat_inv in H. destruct H as (w2 & r3 & -> & H3 & H).
    apply lang_Cat_inv in H. destruct H as (body & w3 & -> & H4 & H5).
    apply lang_Star_Cls_inv in H1. apply lang_Lit_inv in H2. subst m.
    apply lang_Star_Cls_inv in H3. apply lang_Star_Cls_inv in H5.
    apply lang_arguments_text in H4; [|exact HL].
    exists w1, w2, body, w3. repeat split; auto.
  - intros (w1 & w2 & body & w3 & -> & H1 & H2 & H3 & HA).
    assert (N : fullmatch (pattern i)
                  (w1 ++ mnemonic i ++ w2 ++ body ++ w3) <> None).
    { apply fullmatch_complete. unfold pattern.
      constructor; [now apply lang_Star_Cls|].
      constructor; [apply lang_Lit|].
      constructor; [now apply lang_Star_Cls|].
      constructor; [now apply args_text_lang | now apply lang_Star_Cls]. }
    now destruct (fullmatch (pattern i) (w1 ++ mnemonic i ++ w2 ++ body ++ w3)).
Qed.

(** X14.  Full-line matching.  For an instruction whose arguments, as
    [str] gives them, are each a pattern of the fragment on its own and
    without assertions, a line matches the pattern text exactly when it is
    made of optional white space, the mnemonic, optional white space, one
    text for each argument (matched as a whole by the pattern of the
    argument, with commas in between, white space allowed around them) and
    optional white space; nothing may come before or after. *)
Theorem X14_full_line_matching (m : text) (args : list argument)
    (rs : list regex) (line : text) :
  compile_each args = Some rs ->
  forallb lookfree rs = true ->
  (exists caps, fullmatch_str (pattern_str m args) line = Matched caps) <->
  exists w1 w2 body w3,
    line = w1 ++ m ++ w2 ++ body ++ w3
    /\ forallb isspace w1 = true /\ forallb isspace w2 = true
    /\ forallb isspace w3 = true
    /\ args_text rs body.
Proof.
  intros HE HL.
  set (i := {| mnemonic := m; arguments := rs;
               formatter := fun _ : captures => @ret unit text [] |}).
  change (pattern_str m args) with (pattern_str (mnemonic i) args).
  rewrite (@fullmatch_pattern_str unit i args line HE).
  pose proof (@accepts_shape unit i line HL) as A.
  cbn [mnemonic arguments i] in A. unfold accepts in A.
  destruct (fullmatch (pattern i) line) as [caps|]; split.
  - intros _. now apply A.
  - intros _. now exists caps.
  - intros (caps & H). discriminate H.
  - intros H. apply A in H. discriminate H.
Qed.

Lemma X14_full_line_matching_witness :
  (exists caps,
      fullmatch_str (pattern_str (str "mov") [Text (str "\w+"); Text (str "\w+")])
        (str " mov  ab ,c ") = Matched caps) <->
  exists w1 w2 body w3,
    str " mov  ab ,c " = w1 ++ str "mov" ++ w2 ++ body ++ w3
    /\ forallb isspace w1 = true /\ forallb isspace w2 = true
    /\ forallb isspace w3 = true
    /\ args_text [plus word; plus word] body.
Proof.
  apply (@X14_full_line_matching (str "mov")
           [Text (str "\w+"); Text (str "\w+")] [plus word; plus word]
           (str " mov  ab ,c ")).
  - vm_compute. reflexivity.
  - reflexivity.
Defined.




(** X16.  The groups of a pattern.  When the arguments, as [str] gives
    them, are each a pattern of the fragment on its own, the pattern text
    compiles to a pattern with one group for each argument and the groups
    that the arguments bring themselves; on a match the groups are that
    many values, and the inner loop calls the formatter with exactly these
    values. *)
Theorem X16_groups_of_a_pattern (W : Type) (m : text) (args : list argument)
    (rs : list regex) (f : captures -> M W text) :
  compile_each args = Some rs ->
  (exists R, compile (pattern_str m args) = Compiled R
             /\ ngroups R = length args + list_sum (map ngroups rs))
  /\ forall line caps,
       fullmatch_str (pattern_str m args) line = Matched caps ->
       length caps = length args + list_sum (map ngroups rs)
       /\ forall table n st w,
            sections_started st <> 0 ->
            dispatch ({| mnemonic := m; arguments := rs; formatter := f |}
                      :: table) n line st w
            = bind (f caps)
                (fun r => ret {| result := result st ++ [r];
                                 sections_started := sections_started st;
                                 last_section_name := last_section_name st |}) w.
Proof.
  intros HE.
  set (i := {| mnemonic := m; arguments := rs; formatter := f |}).
  split; [exact (@ngroups_pattern_str W i args HE)|].
  intros line caps HM.
  apply (@fullmatch_str_Matched W i args line caps HE) in HM.
  split.
  - rewrite (fullmatch_length _ _ HM), ngroups_pattern.
    cbn [arguments i]. now rewrite (compile_each_length _ HE).
  - intros table n st w Hs. now apply (@dispatch_match W i).
Qed.

Lemma X16_groups_of_a_pattern_witness :
  (exists R, compile (pattern_str (str "sel")
                        [Pattern (str "re.compile('a')")]) = Compiled R
             /\ ngroups R = 2)
  /\ length [Some (str "re.compile'a'"); Some (str "'a'")] = 2.
Proof.
  destruct (@X16_groups_of_a_pattern unit (str "sel")
              [Pattern (str "re.compile('a')")]
              [cat_list (map Chr (str "re") ++ [dot]
                         ++ map Chr (str "compile")
                         ++ [Group (cat_list (map Chr (str "'a'")))])]
              (fun _ => ret (str "SEL"))) as [HN HD].
  - vm_compute. reflexivity.
  - split; [exact HN|].
    destruct (HD (str "sel re.compile'a'")
                [Some (str "re.compile'a'"); Some (str "'a'")]) as [HT _].
    + vm_compute. reflexivity.
    + exact HT.
Defined.

(** ** The output as lines *)

Lemma chomp_truthy (l : list text) :
  Forall (fun x => truthy x = true) l -> chomp l = l.
Proof.
  induction 1 as [|x l Hx Hl IH]; [reflexivity|].
  destruct l as [|y l].
  - simpl. now destruct x.
  - change (chomp (x :: y :: l)) with (x :: chomp (y :: l)). now rewrite IH.
Qed.

(** X17.  When no entry holds a line boundary, the lines of the output
    are the non-empty entries, one line each and in order: the prologue,
    what was emitted, the epilogue.  An empty entry leaves no line. *)
Theorem X17_output_lines (W : Type) (a : Assembler W) (res : list text) :
  Forall (fun x => forallb notlinebreak x = true)
    (start_formatter a :: res ++ [end_formatter a]) ->
  splitlines (joined a res)
  = filter truthy (start_formatter a :: res ++ [end_formatter a]).
Proof.
  intros H. unfold joined.
  change ([start_formatter a] ++ res ++ [end_formatter a])
    with (start_formatter a :: res ++ [end_formatter a]).
  set (l := start_formatter a :: res ++ [end_formatter a]) in *.
  rewrite splitlines_join_chomp.
  - apply chomp_truthy. apply Forall_forall. intros x Hx.
    now apply filter_In in Hx.
  - apply Forall_forall. intros x Hx. apply filter_In in Hx.
    rewrite Forall_forall in H. now apply H.
Qed.

Lemma X17_output_lines_witness :
  splitlines (joined Demo.asm [str "START s"; []; str "NOP"; []])
  = filter truthy (start_formatter Demo.asm
                   :: [str "START s"; []; str "NOP"; []]
                   ++ [end_formatter Demo.asm]).
Proof.
  apply (@X17_output_lines unit Demo.asm [str "START s"; []; str "NOP"; []]).
  repeat constructor.
Defined.
